(** * glib/gthread-posix.c: the POSIX thread primitives of GLib

    A shallow embedding of [glib/gthread-posix.c].  Every C function of the
    file becomes a program over the native calls it makes (the pthread
    functions, the slice allocator, stderr, the GLib logging macros); the
    native layer is a handler that answers those calls.  The same programs
    are run sequentially ([run]) and interleaved ([step]). *)

From Stdlib Require Import ZArith Lia Ascii String.
From stdpp Require Import base option list strings gmap.

Local Open Scope Z_scope.

(** ** Machine data *)

(** Pointers are addresses, [NULL] is address 0. *)
Definition ptr := Z.
Definition NULL : ptr := 0.

(** What the build and the C library fix: the [errno.h] constants the file
    compares against, [strerror]/[g_strerror], the [#ifdef] switches and the
    width of [long]. *)
Record platform := {
  EAGAIN : Z;
  EBUSY : Z;
  ETIMEDOUT : Z;
  strerror : Z -> string;
  g_strerror : Z -> string;
  PTHREAD_ADAPTIVE_MUTEX_INITIALIZER_NP : bool;
  PTHREAD_ADAPTIVE_MUTEX_NP : bool;
  HAVE_PTHREAD_ATTR_SETSTACKSIZE : bool;
  HAVE_SC_THREAD_STACK_MIN : bool;
  long_bits : Z
}.

(** POSIX: the [errno.h] constants are positive, and [long] has at least 32
    bits. *)
Definition platform_ok (P : platform) : Prop :=
  0 < EAGAIN P /\ 0 < EBUSY P /\ 0 < ETIMEDOUT P /\ 32 <= long_bits P.

(** [gulong]: conversion of an integer to [unsigned long]. *)
Definition to_gulong (P : platform) (z : Z) : Z := z mod 2 ^ long_bits P.

(** [glong]: a signed result, wrapped to the width of [long]. *)
Definition to_glong (P : platform) (z : Z) : Z :=
  (z + 2 ^ (long_bits P - 1)) mod 2 ^ long_bits P - 2 ^ (long_bits P - 1).

(** The value of [MAX (a, b)] of gmacros.h, [(((a) > (b)) ? (a) : (b))], at
    the types of its one use: [a] is a [long], [b] a [gulong], so [a] is
    converted to [unsigned long] and the comparison is unsigned. *)
Definition MAX (P : platform) (a b : Z) : Z :=
  if to_gulong P a >? b then to_gulong P a else b.

Record GTimeVal := { tv_sec : Z; tv_usec : Z }.

(** ** Native calls *)

(** The pthread functions that report an [int] status, with the arguments
    the file passes. *)
Inductive pcall : Type :=
| pthread_mutexattr_init
| pthread_mutexattr_settype (kind : string)
| pthread_mutexattr_destroy
| pthread_mutex_init (m : ptr) (with_attr : bool)
| pthread_mutex_destroy (m : ptr)
| pthread_mutex_lock (m : ptr)
| pthread_mutex_unlock (m : ptr)
| pthread_mutex_trylock (m : ptr)
| pthread_rwlock_init (l : ptr)
| pthread_rwlock_destroy (l : ptr)
| pthread_rwlock_wrlock (l : ptr)
| pthread_rwlock_trywrlock (l : ptr)
| pthread_rwlock_rdlock (l : ptr)
| pthread_rwlock_tryrdlock (l : ptr)
| pthread_rwlock_unlock (l : ptr)
| pthread_cond_init (c : ptr)
| pthread_cond_destroy (c : ptr)
| pthread_cond_wait (c m : ptr)
| pthread_cond_signal (c : ptr)
| pthread_cond_broadcast (c : ptr)
| pthread_cond_timedwait (c m : ptr) (end_sec end_nsec : Z)
| pthread_setspecific (k : Z) (v : ptr)
| pthread_attr_init
| pthread_attr_setstacksize (stack_size : Z)
| pthread_attr_setdetachstate (joinable : bool)
| pthread_create (thread func arg : ptr)
| pthread_attr_destroy
| pthread_join (thread : ptr).

Inductive log_level := G_LOG_LEVEL_ERROR | G_LOG_LEVEL_CRITICAL.

(** Everything the file asks of its surroundings, indexed by the type of the
    answer.  [Load_impl], [Store_impl] and [Cas_impl] are the accesses to the
    [impl] field of the [GRecMutex] at an address: they are events because the
    field is shared between threads.  [Abort] has no answer. *)
Inductive nativeE : Type -> Type :=
| Pthread (c : pcall) : nativeE Z
| Pthread_key_create (notify : ptr) : nativeE (Z * Z)
| Pthread_getspecific (k : Z) : nativeE ptr
| G_slice_new : nativeE ptr
| G_slice_free (p : ptr) : nativeE unit
| Load_impl (m : ptr) : nativeE ptr
| Store_impl (m : ptr) (v : ptr) : nativeE unit
| Cas_impl (m : ptr) (oldval newval : ptr) : nativeE bool
| Sysconf_THREAD_STACK_MIN : nativeE Z
| Fprintf_stderr (s : string) : nativeE unit
| G_log (level : log_level) (msg : string) : nativeE unit
| G_set_error (domain : string) (code : string) (msg : string) : nativeE unit
| Abort : nativeE Empty_set.

(** ** Programs *)

Inductive prog (A : Type) : Type :=
| Ret (a : A)
| Vis {X : Type} (e : nativeE X) (k : X -> prog A).
Arguments Ret {A} a.
Arguments Vis {A X} e k.

Fixpoint prog_bind {A B : Type} (f : A -> prog B) (p : prog A) : prog B :=
  match p with
  | Ret a => f a
  | Vis e k => Vis e (fun x => prog_bind f (k x))
  end.

#[global] Instance prog_mret : MRet prog := @Ret.
#[global] Instance prog_mbind : MBind prog := @prog_bind.

(** A call whose answer is used. *)
Definition call {X : Type} (e : nativeE X) : prog X := Vis e Ret.

(** [abort ()] of stdlib.h. *)
Definition abort {A : Type} : prog A :=
  Vis Abort (fun x : Empty_set => match x with end).

(** ** The native layer *)

(** The state the native layer keeps and the file can observe: the [impl]
    fields of the recursive mutexes, the blocks the slice allocator has handed
    out, and the thread-specific values, by key and thread. *)
Record world := {
  impls : gmap Z ptr;
  live : gset Z;
  specific : gmap (Z * nat) ptr
}.

Definition impl_at (w : world) (m : ptr) : ptr := default NULL (impls w !! m).
Definition specific_at (w : world) (k : Z) (t : nat) : ptr :=
  default NULL (specific w !! (k, t)).

(** What the native layer decides during one call: the status of each pthread
    function, the outcome of [pthread_key_create] (status and key), the block
    [g_slice_new] hands out and the value of [sysconf]. *)
Record env := {
  status : pcall -> Z;
  key_created : Z * Z;
  block : ptr;
  stack_min : Z
}.

Definition drop_key (k : Z) (s : gmap (Z * nat) ptr) : gmap (Z * nat) ptr :=
  filter (fun kv => kv.1.1 <> k) s.

(** The answer to one native call made by thread [t], and the world after it.
    POSIX: a successful [pthread_setspecific] binds the value for the calling
    thread only; a key just created has [NULL] in every thread;
    [pthread_getspecific] reports the value of the calling thread. *)
Definition handle (rho : env) (t : nat) (w : world) {X : Type} (e : nativeE X)
  : option (X * world) :=
  match e in nativeE X return option (X * world) with
  | Pthread c =>
      let s := status rho c in
      Some (s, match c with
               | pthread_setspecific k v =>
                   if s =? 0
                   then {| impls := impls w; live := live w;
                           specific := <[(k, t) := v]> (specific w) |}
                   else w
               | _ => w
               end)
  | Pthread_key_create _ =>
      let s := (key_created rho).1 in
      let k := (key_created rho).2 in
      Some ((s, k),
            if s =? 0
            then {| impls := impls w; live := live w;
                    specific := drop_key k (specific w) |}
            else w)
  | Pthread_getspecific k => Some (specific_at w k t, w)
  | G_slice_new =>
      Some (block rho,
            {| impls := impls w; live := {[block rho]} ∪ live w;
               specific := specific w |})
  | G_slice_free p =>
      Some (tt, {| impls := impls w; live := live w ∖ {[p]};
                   specific := specific w |})
  | Load_impl m => Some (impl_at w m, w)
  | Store_impl m v =>
      Some (tt, {| impls := <[m := v]> (impls w); live := live w;
                   specific := specific w |})
  | Cas_impl m oldval newval =>
      if impl_at w m =? oldval
      then Some (true, {| impls := <[m := newval]> (impls w); live := live w;
                          specific := specific w |})
      else Some (false, w)
  | Sysconf_THREAD_STACK_MIN => Some (stack_min rho, w)
  | Fprintf_stderr _ => Some (tt, w)
  | G_log _ _ => Some (tt, w)
  | G_set_error _ _ _ => Some (tt, w)
  | Abort => None
  end.

(** What an observer sees of a call and its answer. *)
Inductive event : Type :=
| EvPthread (c : pcall) (s : Z)
| EvKeyCreate (s k : Z)
| EvGetSpecific (k : Z) (v : ptr)
| EvSliceNew (p : ptr)
| EvSliceFree (p : ptr)
| EvLoad (m v : ptr)
| EvStore (m v : ptr)
| EvCas (m oldval newval : ptr) (ok : bool)
| EvSysconf (v : Z)
| EvStderr (s : string)
| EvLog (level : log_level) (msg : string)
| EvSetError (domain code msg : string)
| EvAbort.

Definition observe {X : Type} (e : nativeE X) : X -> event :=
  match e in nativeE X return X -> event with
  | Pthread c => fun s => EvPthread c s
  | Pthread_key_create _ => fun sk => EvKeyCreate sk.1 sk.2
  | Pthread_getspecific k => fun v => EvGetSpecific k v
  | G_slice_new => fun p => EvSliceNew p
  | G_slice_free p => fun _ => EvSliceFree p
  | Load_impl m => fun v => EvLoad m v
  | Store_impl m v => fun _ => EvStore m v
  | Cas_impl m o n => fun ok => EvCas m o n ok
  | Sysconf_THREAD_STACK_MIN => fun v => EvSysconf v
  | Fprintf_stderr s => fun _ => EvStderr s
  | G_log l msg => fun _ => EvLog l msg
  | G_set_error d c msg => fun _ => EvSetError d c msg
  | Abort => fun _ => EvAbort
  end.

(** How a call of thread [t] ends: it returns to its caller, or the process
    is gone. *)
Inductive outcome (A : Type) : Type :=
| Returned (a : A)
| Aborted.
Arguments Returned {A} a.
Arguments Aborted {A}.

Record result (A : Type) := {
  trace : list event;
  out : outcome A;
  final : world
}.
Arguments trace {A} r.
Arguments out {A} r.
Arguments final {A} r.

(** One thread running a program to its end, with nobody interfering. *)
Fixpoint run {A : Type} (rho : env) (t : nat) (p : prog A) (w : world) : result A :=
  match p with
  | Ret a => {| trace := []; out := Returned a; final := w |}
  | Vis e k =>
      match handle rho t w e with
      | Some (x, w') =>
          let r := run rho t (k x) w' in
          {| trace := observe e x :: trace r; out := out r; final := final r |}
      | None => {| trace := [EvAbort]; out := Aborted; final := w |}
      end
  end.

(** ** The code of gthread-posix.c *)

Definition newline : string := String "010"%char EmptyString.

(** [fprintf] with a format of two [%s]: the text before, between and after
    them, and the two arguments in the order they are passed. *)
Definition sprintf2 (before arg1 between arg2 after : string) : string :=
  before +:+ arg1 +:+ between +:+ arg2 +:+ after.

Section Code.
Variable P : platform.

(** [MAX (a, b)] as the preprocessor expands it, for an [a] that is a call:
    [a] is evaluated for the comparison and, when it is the greater, once
    more for the result. *)
Definition MAX_expanded (a : prog Z) (b : Z) : prog Z :=
  x ← a;
  if to_gulong P x >? b then y ← a; mret (to_gulong P y) else mret b.

(** [g_thread_abort]: the diagnostic on stderr, then [abort ()].  The
    arguments of the format are passed in the order of the source:
    [strerror (status)] first, [function] second. *)
Definition g_thread_abort {A : Type} (status : Z) (function : string) : prog A :=
  call (Fprintf_stderr
          (sprintf2 "GLib (gthread-posix.c): Unexpected error from C library during '"
             (strerror P status) "': " function (".  Aborting." +:+ newline)));;
  abort.

(** *** GMutex *)

Definition g_mutex_init (mutex : ptr) : prog unit :=
  pattr ← (if PTHREAD_ADAPTIVE_MUTEX_INITIALIZER_NP P
           then call (Pthread pthread_mutexattr_init);;
                call (Pthread (pthread_mutexattr_settype "PTHREAD_MUTEX_ADAPTIVE_NP"));;
                mret true
           else mret false);
  status ← call (Pthread (pthread_mutex_init mutex pattr));
  (if negb (status =? 0)
   then g_thread_abort status "pthread_mutex_init" else mret tt);;
  if PTHREAD_ADAPTIVE_MUTEX_NP P
  then call (Pthread pthread_mutexattr_destroy);; mret tt
  else mret tt.

Definition g_mutex_clear (mutex : ptr) : prog unit :=
  status ← call (Pthread (pthread_mutex_destroy mutex));
  if negb (status =? 0)
  then g_thread_abort status "pthread_mutex_destroy" else mret tt.

Definition g_mutex_lock (mutex : ptr) : prog unit :=
  status ← call (Pthread (pthread_mutex_lock mutex));
  if negb (status =? 0)
  then g_thread_abort status "pthread_mutex_lock" else mret tt.

Definition g_mutex_unlock (mutex : ptr) : prog unit :=
  status ← call (Pthread (pthread_mutex_unlock mutex));
  if negb (status =? 0)
  then g_thread_abort status "pthread_mutex_lock" else mret tt.

Definition g_mutex_trylock (mutex : ptr) : prog bool :=
  status ← call (Pthread (pthread_mutex_trylock mutex));
  if status =? 0 then mret true
  else
    (if negb (status =? EBUSY P)
     then g_thread_abort status "pthread_mutex_trylock" else mret tt);;
    mret false.

(** *** GRecMutex *)

Definition g_rec_mutex_impl_new : prog ptr :=
  mutex ← call G_slice_new;
  call (Pthread pthread_mutexattr_init);;
  call (Pthread (pthread_mutexattr_settype "PTHREAD_MUTEX_RECURSIVE"));;
  call (Pthread (pthread_mutex_init mutex true));;
  call (Pthread pthread_mutexattr_destroy);;
  mret mutex.

Definition g_rec_mutex_impl_free (mutex : ptr) : prog unit :=
  call (Pthread (pthread_mutex_destroy mutex));;
  call (G_slice_free mutex).

(** The field [mutex->impl] is read twice before the test: once into the
    local [impl], once in the condition. *)
Definition g_rec_mutex_get_impl (mutex : ptr) : prog ptr :=
  impl ← call (Load_impl mutex);
  cur ← call (Load_impl mutex);
  if cur =? NULL then
    impl ← g_rec_mutex_impl_new;
    ok ← call (Cas_impl mutex NULL impl);
    (if negb ok then g_rec_mutex_impl_free impl else mret tt);;
    call (Load_impl mutex)
  else mret impl.

Definition g_rec_mutex_init (rec_mutex : ptr) : prog unit :=
  impl ← g_rec_mutex_impl_new;
  call (Store_impl rec_mutex impl).

Definition g_rec_mutex_clear (rec_mutex : ptr) : prog unit :=
  cur ← call (Load_impl rec_mutex);
  if negb (cur =? NULL) then
    impl ← call (Load_impl rec_mutex);
    g_rec_mutex_impl_free impl
  else mret tt.

Definition g_rec_mutex_lock (mutex : ptr) : prog unit :=
  impl ← g_rec_mutex_get_impl mutex;
  call (Pthread (pthread_mutex_lock impl));;
  mret tt.



(** *** GRWLock *)

Definition g_rw_lock_init (lock : ptr) : prog unit :=
  call (Pthread (pthread_rwlock_init lock));; mret tt.

Definition g_rw_lock_clear (lock : ptr) : prog unit :=
  call (Pthread (pthread_rwlock_destroy lock));; mret tt.

Definition g_rw_lock_writer_lock (lock : ptr) : prog unit :=
  call (Pthread (pthread_rwlock_wrlock lock));; mret tt.

Definition g_rw_lock_writer_trylock (lock : ptr) : prog bool :=
  status ← call (Pthread (pthread_rwlock_trywrlock lock));
  if negb (status =? 0) then mret false else mret true.

Definition g_rw_lock_writer_unlock (lock : ptr) : prog unit :=
  call (Pthread (pthread_rwlock_unlock lock));; mret tt.

Definition g_rw_lock_reader_lock (lock : ptr) : prog unit :=
  call (Pthread (pthread_rwlock_rdlock lock));; mret tt.

Definition g_rw_lock_reader_trylock (lock : ptr) : prog bool :=
  status ← call (Pthread (pthread_rwlock_tryrdlock lock));
  if negb (status =? 0) then mret false else mret true.

Definition g_rw_lock_reader_unlock (lock : ptr) : prog unit :=
  call (Pthread (pthread_rwlock_unlock lock));; mret tt.

(** *** GCond *)

Definition g_cond_init (cond : ptr) : prog unit :=
  status ← call (Pthread (pthread_cond_init cond));
  if negb (status =? 0)
  then g_thread_abort status "pthread_cond_init" else mret tt.

Definition g_cond_clear (cond : ptr) : prog unit :=
  status ← call (Pthread (pthread_cond_destroy cond));
  if negb (status =? 0)
  then g_thread_abort status "pthread_cond_destroy" else mret tt.

Definition g_cond_wait (cond mutex : ptr) : prog unit :=
  status ← call (Pthread (pthread_cond_wait cond mutex));
  if negb (status =? 0)
  then g_thread_abort status "pthread_cond_wait" else mret tt.

Definition g_cond_signal (cond : ptr) : prog unit :=
  status ← call (Pthread (pthread_cond_signal cond));
  if negb (status =? 0)
  then g_thread_abort status "pthread_cond_signal" else mret tt.

Definition g_cond_broadcast (cond : ptr) : prog unit :=
  status ← call (Pthread (pthread_cond_broadcast cond));
  if negb (status =? 0)
  then g_thread_abort status "pthread_cond_broadcast" else mret tt.

(** [abs_time] is a [GTimeVal *]: [None] is the null pointer. *)
Definition g_cond_timed_wait (cond mutex : ptr) (abs_time : option GTimeVal)
  : prog bool :=
  match abs_time with
  | None => g_cond_wait cond mutex;; mret true
  | Some tv =>
      let end_sec := tv_sec tv in
      let end_nsec := to_glong P (tv_usec tv * 1000) in
      status ← call (Pthread (pthread_cond_timedwait cond mutex end_sec end_nsec));
      if status =? 0 then mret true
      else
        (if negb (status =? ETIMEDOUT P)
         then g_thread_abort status "pthread_cond_timedwait" else mret tt);;
        mret false
  end.

(** [abs_time] is a [gint64], a number from [G_MININT64] to [G_MAXINT64];
    C division and remainder truncate. *)
Definition g_cond_timedwait (cond mutex : ptr) (abs_time : Z) : prog bool :=
  let end_sec := to_glong P (Z.quot abs_time 1000000) in
  let end_nsec := to_glong P (Z.rem abs_time 1000000 * 1000) in
  status ← call (Pthread (pthread_cond_timedwait cond mutex end_sec end_nsec));
  if status =? 0 then mret true
  else
    (if negb (status =? ETIMEDOUT P)
     then g_thread_abort status "pthread_cond_timedwait" else mret tt);;
    mret false.

(** *** GPrivate *)

(** The slot: the native key, the readiness flag and the fallback value. *)
Record GPrivate := {
  single_value : ptr;
  ready : bool;
  key : Z
}.

(** [pthread_key_create] stores the key through [&key->key] when it
    succeeds; its status is not looked at. *)
Definition g_private_init (slot : GPrivate) (notify : ptr) : prog GPrivate :=
  sk ← call (Pthread_key_create notify);
  mret {| single_value := single_value slot;
          ready := true;
          key := if sk.1 =? 0 then sk.2 else key slot |}.

Definition g_private_get (slot : GPrivate) : prog ptr :=
  if negb (ready slot) then mret (single_value slot)
  else call (Pthread_getspecific (key slot)).

Definition g_private_set (slot : GPrivate) (value : ptr) : prog GPrivate :=
  if negb (ready slot)
  then mret {| single_value := value; ready := ready slot; key := key slot |}
  else
    status ← call (Pthread (pthread_setspecific (key slot) value));
    if negb (status =? 0)
    then g_thread_abort status "pthread_setspecific" else mret slot.

(** *** GThread *)

(** Modelled from the spec: [g_error] of gmessages.h is not in src/.  It logs
    at the error level, which is fatal: the spec calls every unexpected native
    status during creation fatal. *)
Definition g_error {A : Type} (msg : string) : prog A :=
  call (G_log G_LOG_LEVEL_ERROR msg);; abort.

(** Modelled from the spec: [g_return_if_fail] of gmessages.h is not in
    src/.  When the condition fails it logs a critical warning and the
    enclosing function returns; [g_return_if_fail_warning] is the logging
    half, the return is written at the place of use. *)
Definition g_return_if_fail_warning (func expr : string) : prog unit :=
  call (G_log G_LOG_LEVEL_CRITICAL
          (func +:+ ": assertion '" +:+ expr +:+ "' failed")).

(** The text [posix_check_err] hands to [g_error]: the format
    ["file %s: line %d (%s): error '%s' during '%s'"] filled with [__FILE__],
    [__LINE__] (as text), [G_STRFUNC], [g_strerror (error)] and [name]. *)
Definition posix_error_message (strfunc line : string) (err : Z) (name : string)
  : string :=
  "file gthread-posix.c: line " +:+ line +:+ " (" +:+ strfunc +:+ "): error '"
  +:+ g_strerror P err +:+ "' during '" +:+ name +:+ "'".

(** [posix_check_err (err, name)]; [strfunc] is [G_STRFUNC], the name of the
    function the macro is used in, [line] is [__LINE__]. *)
Definition posix_check_err (strfunc line : string) (err : Z) (name : string)
  : prog unit :=
  if negb (err =? 0)
  then g_error (posix_error_message strfunc line err name)
  else mret tt.

(** [posix_check_cmd (cmd)] is [posix_check_err (cmd, #cmd)]. *)
Definition posix_check_cmd (strfunc line : string) (cmd : pcall) (name : string)
  : prog unit :=
  err ← call (Pthread cmd);
  posix_check_err strfunc line err name.

(** [error] is the [GError **] out-parameter: [g_set_error] on it is the
    event [G_set_error]. *)
Definition g_system_thread_create (thread_func arg : ptr) (stack_size : Z)
    (joinable : bool) (thread : ptr) : prog unit :=
  if thread_func =? NULL
  then g_return_if_fail_warning "g_system_thread_create" "thread_func"
  else
    let strfunc := "g_system_thread_create" in
    posix_check_cmd strfunc "849" pthread_attr_init "pthread_attr_init (&attr)";;
    (if HAVE_PTHREAD_ATTR_SETSTACKSIZE P then
       if negb (stack_size =? 0) then
         stack_size ← (if HAVE_SC_THREAD_STACK_MIN P
                       then MAX_expanded (call Sysconf_THREAD_STACK_MIN) stack_size
                       else mret stack_size);
         call (Pthread (pthread_attr_setstacksize stack_size));;
         mret tt
       else mret tt
     else mret tt);;
    posix_check_cmd strfunc "863" (pthread_attr_setdetachstate joinable)
      "pthread_attr_setdetachstate (&attr, joinable ? PTHREAD_CREATE_JOINABLE : PTHREAD_CREATE_DETACHED)";;
    ret ← call (Pthread (pthread_create thread thread_func arg));
    posix_check_cmd strfunc "868" pthread_attr_destroy "pthread_attr_destroy (&attr)";;
    if ret =? EAGAIN P then
      call (G_set_error "G_THREAD_ERROR" "G_THREAD_ERROR_AGAIN"
              ("Error creating thread: " +:+ g_strerror P ret))
    else posix_check_err strfunc "877" ret "pthread_create".

Definition g_system_thread_join (thread : ptr) : prog unit :=
  posix_check_cmd "g_system_thread_join" "899" (pthread_join thread)
    "pthread_join (*(pthread_t*)thread, &ignore)".

End Code.

(** ** A concrete platform: Linux, glibc, LP64 *)

Definition linux_strerror (e : Z) : string :=
  if e =? 1 then "Operation not permitted"
  else if e =? 11 then "Resource temporarily unavailable"
  else if e =? 12 then "Cannot allocate memory"
  else if e =? 16 then "Device or resource busy"
  else if e =? 22 then "Invalid argument"
  else if e =? 35 then "Resource deadlock avoided"
  else if e =? 110 then "Connection timed out"
  else "Unknown error".

Definition linux : platform := {|
  EAGAIN := 11;
  EBUSY := 16;
  ETIMEDOUT := 110;
  strerror := linux_strerror;
  g_strerror := linux_strerror;
  PTHREAD_ADAPTIVE_MUTEX_INITIALIZER_NP := true;
  PTHREAD_ADAPTIVE_MUTEX_NP := true;
  HAVE_PTHREAD_ATTR_SETSTACKSIZE := true;
  HAVE_SC_THREAD_STACK_MIN := true;
  long_bits := 64
|}.

Definition EPERM : Z := 1.
Definition ENOMEM : Z := 12.
Definition EINVAL : Z := 22.
Definition EDEADLK : Z := 35.

(** The world before anything was allocated or stored. *)
Definition world0 : world := {| impls := ∅; live := ∅; specific := ∅ |}.

(** A native layer in which every call succeeds, and one in which a chosen
    call reports a chosen status. *)
Definition all_succeed : env :=
  {| status := fun _ => 0; key_created := (0, 1); block := 4096;
     stack_min := 16384 |}.

Definition pcall_tag (c : pcall) : string :=
  match c with
  | pthread_mutexattr_init => "pthread_mutexattr_init"
  | pthread_mutexattr_settype _ => "pthread_mutexattr_settype"
  | pthread_mutexattr_destroy => "pthread_mutexattr_destroy"
  | pthread_mutex_init _ _ => "pthread_mutex_init"
  | pthread_mutex_destroy _ => "pthread_mutex_destroy"
  | pthread_mutex_lock _ => "pthread_mutex_lock"
  | pthread_mutex_unlock _ => "pthread_mutex_unlock"
  | pthread_mutex_trylock _ => "pthread_mutex_trylock"
  | pthread_rwlock_init _ => "pthread_rwlock_init"
  | pthread_rwlock_destroy _ => "pthread_rwlock_destroy"
  | pthread_rwlock_wrlock _ => "pthread_rwlock_wrlock"
  | pthread_rwlock_trywrlock _ => "pthread_rwlock_trywrlock"
  | pthread_rwlock_rdlock _ => "pthread_rwlock_rdlock"
  | pthread_rwlock_tryrdlock _ => "pthread_rwlock_tryrdlock"
  | pthread_rwlock_unlock _ => "pthread_rwlock_unlock"
  | pthread_cond_init _ => "pthread_cond_init"
  | pthread_cond_destroy _ => "pthread_cond_destroy"
  | pthread_cond_wait _ _ => "pthread_cond_wait"
  | pthread_cond_signal _ => "pthread_cond_signal"
  | pthread_cond_broadcast _ => "pthread_cond_broadcast"
  | pthread_cond_timedwait _ _ _ _ => "pthread_cond_timedwait"
  | pthread_setspecific _ _ => "pthread_setspecific"
  | pthread_attr_init => "pthread_attr_init"
  | pthread_attr_setstacksize _ => "pthread_attr_setstacksize"
  | pthread_attr_setdetachstate _ => "pthread_attr_setdetachstate"
  | pthread_create _ _ _ => "pthread_create"
  | pthread_attr_destroy => "pthread_attr_destroy"
  | pthread_join _ => "pthread_join"
  end.

Definition failing (name : string) (s : Z) : env :=
  {| status := fun c => if String.eqb (pcall_tag c) name then s else 0;
     key_created := (0, 1); block := 4096; stack_min := 16384 |}.


(** ** The operations that look at the native status *)

(** The calls of GMutex and GCond, and [g_private_set], each with its
    arguments. *)
Inductive checked_op : Type :=
| Call_g_mutex_init (mutex : ptr)
| Call_g_mutex_clear (mutex : ptr)
| Call_g_mutex_lock (mutex : ptr)
| Call_g_mutex_unlock (mutex : ptr)
| Call_g_mutex_trylock (mutex : ptr)
| Call_g_cond_init (cond : ptr)
| Call_g_cond_clear (cond : ptr)
| Call_g_cond_wait (cond mutex : ptr)
| Call_g_cond_signal (cond : ptr)
| Call_g_cond_broadcast (cond : ptr)
| Call_g_cond_timed_wait (cond mutex : ptr) (abs_time : option GTimeVal)
| Call_g_cond_timedwait (cond mutex : ptr) (abs_time : Z)
| Call_g_private_set (slot : GPrivate) (value : ptr).

Section Checked.
Variable P : platform.

(** The call itself, its result dropped. *)
Definition op_prog (op : checked_op) : prog unit :=
  match op with
  | Call_g_mutex_init m => g_mutex_init P m
  | Call_g_mutex_clear m => g_mutex_clear P m
  | Call_g_mutex_lock m => g_mutex_lock P m
  | Call_g_mutex_unlock m => g_mutex_unlock P m
  | Call_g_mutex_trylock m => g_mutex_trylock P m;; mret tt
  | Call_g_cond_init c => g_cond_init P c
  | Call_g_cond_clear c => g_cond_clear P c
  | Call_g_cond_wait c m => g_cond_wait P c m
  | Call_g_cond_signal c => g_cond_signal P c
  | Call_g_cond_broadcast c => g_cond_broadcast P c
  | Call_g_cond_timed_wait c m abs_time => g_cond_timed_wait P c m abs_time;; mret tt
  | Call_g_cond_timedwait c m abs_time => g_cond_timedwait P c m abs_time;; mret tt
  | Call_g_private_set slot value => g_private_set P slot value;; mret tt
  end.

(** The native call under it. *)
Definition op_native (op : checked_op) : pcall :=
  match op with
  | Call_g_mutex_init m =>
      pthread_mutex_init m (PTHREAD_ADAPTIVE_MUTEX_INITIALIZER_NP P)
  | Call_g_mutex_clear m => pthread_mutex_destroy m
  | Call_g_mutex_lock m => pthread_mutex_lock m
  | Call_g_mutex_unlock m => pthread_mutex_unlock m
  | Call_g_mutex_trylock m => pthread_mutex_trylock m
  | Call_g_cond_init c => pthread_cond_init c
  | Call_g_cond_clear c => pthread_cond_destroy c
  | Call_g_cond_wait c m => pthread_cond_wait c m
  | Call_g_cond_signal c => pthread_cond_signal c
  | Call_g_cond_broadcast c => pthread_cond_broadcast c
  | Call_g_cond_timed_wait c m None => pthread_cond_wait c m
  | Call_g_cond_timed_wait c m (Some tv) =>
      pthread_cond_timedwait c m (tv_sec tv) (to_glong P (tv_usec tv * 1000))
  | Call_g_cond_timedwait c m abs_time =>
      pthread_cond_timedwait c m (to_glong P (Z.quot abs_time 1000000))
        (to_glong P (Z.rem abs_time 1000000 * 1000))
  | Call_g_private_set slot value => pthread_setspecific (key slot) value
  end.

(** The statuses the call has a return value for. *)
Definition op_expected (op : checked_op) (s : Z) : bool :=
  (s =? 0) ||
  match op with
  | Call_g_mutex_trylock _ => s =? EBUSY P
  | Call_g_cond_timed_wait _ _ (Some _) => s =? ETIMEDOUT P
  | Call_g_cond_timedwait _ _ _ => s =? ETIMEDOUT P
  | _ => false
  end.

(** The name the call hands to [g_thread_abort]. *)
Definition op_function (op : checked_op) : string :=
  match op with
  | Call_g_mutex_init _ => "pthread_mutex_init"
  | Call_g_mutex_clear _ => "pthread_mutex_destroy"
  | Call_g_mutex_lock _ => "pthread_mutex_lock"
  | Call_g_mutex_unlock _ => "pthread_mutex_lock"
  | Call_g_mutex_trylock _ => "pthread_mutex_trylock"
  | Call_g_cond_init _ => "pthread_cond_init"
  | Call_g_cond_clear _ => "pthread_cond_destroy"
  | Call_g_cond_wait _ _ => "pthread_cond_wait"
  | Call_g_cond_signal _ => "pthread_cond_signal"
  | Call_g_cond_broadcast _ => "pthread_cond_broadcast"
  | Call_g_cond_timed_wait _ _ None => "pthread_cond_wait"
  | Call_g_cond_timed_wait _ _ (Some _) => "pthread_cond_timedwait"
  | Call_g_cond_timedwait _ _ _ => "pthread_cond_timedwait"
  | Call_g_private_set _ _ => "pthread_setspecific"
  end.

(** [g_private_set] reaches the native layer only on a ready slot. *)
Definition reaches_native (op : checked_op) : Prop :=
  match op with
  | Call_g_private_set slot _ => ready slot = true
  | _ => True
  end.

(** What [g_thread_abort] leaves on stderr. *)
Definition diagnostic (status : Z) (function : string) : string :=
  sprintf2 "GLib (gthread-posix.c): Unexpected error from C library during '"
    (strerror P status) "': " function (".  Aborting." +:+ newline).

End Checked.

(** ** Calls on one slot, one after another *)

Inductive slot_call : Type :=
| SlotGet
| SlotSet (value : ptr).

(** The calls are made in order, each by its thread and under what the native
    layer decides for it; the slot and the world are handed from one call to
    the next.  [None] when a call ends the process. *)
Fixpoint run_slot_calls (P : platform) (slot : GPrivate)
    (calls : list (nat * env * slot_call)) (w : world)
  : option (GPrivate * world) :=
  match calls with
  | [] => Some (slot, w)
  | (t, rho, SlotGet) :: rest =>
      let r := run rho t (g_private_get slot) w in
      match out r with
      | Returned _ => run_slot_calls P slot rest (final r)
      | Aborted => None
      end
  | (t, rho, SlotSet v) :: rest =>
      let r := run rho t (g_private_set P slot v) w in
      match out r with
      | Returned slot' => run_slot_calls P slot' rest (final r)
      | Aborted => None
      end
  end.

(** The value thread [t] has stored last among the calls, [start] if it has
    stored none. *)
Fixpoint last_set_from (start : ptr) (t : nat)
    (calls : list (nat * env * slot_call)) : ptr :=
  match calls with
  | [] => start
  | (t', _, SlotSet v) :: rest =>
      last_set_from (if Nat.eqb t' t then v else start) t rest
  | (_, _, SlotGet) :: rest => last_set_from start t rest
  end.

Definition last_set (t : nat) (calls : list (nat * env * slot_call)) : ptr :=
  last_set_from NULL t calls.

(** ** Two slots and a key that cannot be created *)

(** A slot that was never touched: a zero-initialised [GPrivate]. *)
Definition untouched_slot : GPrivate :=
  {| single_value := NULL; ready := false; key := 0 |}.

(** A native layer in which [pthread_key_create] hands out key [k], and one
    in which it reports [s] and stores no key. *)
Definition creating_key (k : Z) : env :=
  {| status := fun _ => 0; key_created := (0, k); block := 4096;
     stack_min := 16384 |}.

Definition key_create_fails (s : Z) : env :=
  {| status := fun _ => 0; key_created := (s, 0); block := 4096;
     stack_min := 16384 |}.

(** ** Threads interleaved *)

(** One native call of thread [t], whose remaining program is [p]: the call
    is answered, the thread goes on with the answer.  A thread that has
    returned, or that calls [abort], does not step. *)
Definition thread_step {A : Type} (rho : env) (t : nat) (w : world) (p : prog A)
  : option (event * prog A * world) :=
  match p with
  | Ret _ => None
  | Vis e k =>
      match handle rho t w e with
      | Some (x, w') => Some (observe e x, k x, w')
      | None => None
      end
  end.

Definition allocates {A : Type} (p : prog A) : bool :=
  match p with
  | Vis e _ => match e with G_slice_new => true | _ => false end
  | Ret _ => false
  end.

(** The slice allocator hands out neither NULL nor a block that is in use. *)
Definition allocator_ok {A : Type} (rho : env) (w : world) (p : prog A) : Prop :=
  allocates p = true -> block rho <> NULL /\ block rho ∉ live w.

(** The threads of the process, each in the middle of a call that yields a
    pointer, over the one world they share. *)
Record config := { shared : world; pool : list (prog ptr) }.

(** Any thread may make the next native call. *)
Inductive step : config -> nat * event -> config -> Prop :=
| step_thread (c : config) (t : nat) (rho : env) (p p' : prog ptr)
    (ev : event) (w' : world) :
    pool c !! t = Some p ->
    allocator_ok rho (shared c) p ->
    thread_step rho t (shared c) p = Some (ev, p', w') ->
    step c (t, ev) {| shared := w'; pool := <[t := p']> (pool c) |}.

Inductive exec : config -> list (nat * event) -> config -> Prop :=
| exec_done (c : config) : exec c [] c
| exec_more (c c' c'' : config) (tr : list (nat * event)) (l : nat * event) :
    exec c tr c' -> step c' l c'' -> exec c (tr ++ [l]) c''.

(** The same, driven by a schedule: who steps, and what the native layer
    decides for that step. *)
Definition sched_step (c : config) (t : nat) (rho : env) : option (event * config) :=
  match pool c !! t with
  | Some p =>
      if implb (allocates p)
           (bool_decide (block rho <> NULL /\ block rho ∉ live (shared c)))
      then match thread_step rho t (shared c) p with
           | Some (ev, p', w') =>
               Some (ev, {| shared := w'; pool := <[t := p']> (pool c) |})
           | None => None
           end
      else None
  | None => None
  end.

Fixpoint run_schedule (sched : list (nat * env)) (c : config)
  : option (list (nat * event) * config) :=
  match sched with
  | [] => Some ([], c)
  | (t, rho) :: rest =>
      match sched_step c t rho with
      | Some (ev, c') =>
          match run_schedule rest c' with
          | Some (tr, c'') => Some ((t, ev) :: tr, c'')
          | None => None
          end
      | None => None
      end
  end.

(** [n] threads enter [g_rec_mutex_get_impl] on the same mutex. *)
Definition all_enter (n : nat) (m : ptr) (w : world) : config :=
  {| shared := w; pool := replicate n (g_rec_mutex_get_impl m) |}.

(** *** What a trace says *)

Definition steps_by (t : nat) (tr : list (nat * event)) : nat :=
  length (List.filter (fun l => Nat.eqb l.1 t) tr).

Definition is_cas (ev : event) : bool :=
  match ev with EvCas _ _ _ _ => true | _ => false end.

Definition cas_count (t : nat) (tr : list (nat * event)) : nat :=
  length (List.filter (fun l => Nat.eqb l.1 t && is_cas l.2) tr).

(** The publications that won: who, and which block. *)
Definition cas_won (l : nat * event) : option (nat * ptr) :=
  match l.2 with
  | EvCas _ _ c true => Some (l.1, c)
  | _ => None
  end.

Definition wins (tr : list (nat * event)) : list (nat * ptr) := omap cas_won tr.

(** *** The places of [g_rec_mutex_get_impl] *)

(** Where a thread is in [g_rec_mutex_get_impl], one place per native call,
    with the locals that are live there: the value of [impl] read at line 260,
    the candidate built by [g_rec_mutex_impl_new].  [AtReturn] records whether
    the thread went through the allocation. *)
Inductive pc : Type :=
| AtLoad
| AtTest (impl : ptr)
| AtNew
| AtAttrInit (cand : ptr)
| AtSetType (cand : ptr)
| AtMutexInit (cand : ptr)
| AtAttrDestroy (cand : ptr)
| AtCas (cand : ptr)
| AtDestroy (cand : ptr)
| AtFree (cand : ptr)
| AtReload
| AtReturn (first_use : bool) (impl : ptr).

(** Lines 265 to 267. *)
Definition publish (m : ptr) (impl : ptr) : prog ptr :=
  ok ← call (Cas_impl m NULL impl);
  (if negb ok then g_rec_mutex_impl_free impl else mret tt);;
  call (Load_impl m).

(** The program that remains at a place. *)
Definition at_pc (m : ptr) (p : pc) : prog ptr :=
  match p with
  | AtLoad => g_rec_mutex_get_impl m
  | AtTest impl =>
      cur ← call (Load_impl m);
      if cur =? NULL then impl ← g_rec_mutex_impl_new; publish m impl
      else mret impl
  | AtNew => impl ← g_rec_mutex_impl_new; publish m impl
  | AtAttrInit c =>
      (call (Pthread pthread_mutexattr_init);;
       call (Pthread (pthread_mutexattr_settype "PTHREAD_MUTEX_RECURSIVE"));;
       call (Pthread (pthread_mutex_init c true));;
       call (Pthread pthread_mutexattr_destroy);;
       mret c) ≫= publish m
  | AtSetType c =>
      (call (Pthread (pthread_mutexattr_settype "PTHREAD_MUTEX_RECURSIVE"));;
       call (Pthread (pthread_mutex_init c true));;
       call (Pthread pthread_mutexattr_destroy);;
       mret c) ≫= publish m
  | AtMutexInit c =>
      (call (Pthread (pthread_mutex_init c true));;
       call (Pthread pthread_mutexattr_destroy);;
       mret c) ≫= publish m
  | AtAttrDestroy c =>
      (call (Pthread pthread_mutexattr_destroy);; mret c) ≫= publish m
  | AtCas c => publish m c
  | AtDestroy c => g_rec_mutex_impl_free c;; call (Load_impl m)
  | AtFree c => call (G_slice_free c);; call (Load_impl m)
  | AtReload => call (Load_impl m)
  | AtReturn _ v => Ret v
  end.

Definition with_live (w : world) (l : gset Z) : world :=
  {| impls := impls w; live := l; specific := specific w |}.

Definition with_impl (w : world) (m v : ptr) : world :=
  {| impls := <[m := v]> (impls w); live := live w; specific := specific w |}.

(** The step of a thread, place to place. *)
Definition pc_step (m : ptr) (rho : env) (w : world) (p : pc)
  : option (event * pc * world) :=
  match p with
  | AtLoad => Some (EvLoad m (impl_at w m), AtTest (impl_at w m), w)
  | AtTest impl =>
      Some (EvLoad m (impl_at w m),
            if impl_at w m =? NULL then AtNew else AtReturn false impl, w)
  | AtNew =>
      Some (EvSliceNew (block rho), AtAttrInit (block rho),
            with_live w ({[block rho]} ∪ live w))
  | AtAttrInit c =>
      Some (EvPthread pthread_mutexattr_init (status rho pthread_mutexattr_init),
            AtSetType c, w)
  | AtSetType c =>
      Some (EvPthread (pthread_mutexattr_settype "PTHREAD_MUTEX_RECURSIVE")
              (status rho (pthread_mutexattr_settype "PTHREAD_MUTEX_RECURSIVE")),
            AtMutexInit c, w)
  | AtMutexInit c =>
      Some (EvPthread (pthread_mutex_init c true)
              (status rho (pthread_mutex_init c true)),
            AtAttrDestroy c, w)
  | AtAttrDestroy c =>
      Some (EvPthread pthread_mutexattr_destroy
              (status rho pthread_mutexattr_destroy),
            AtCas c, w)
  | AtCas c =>
      if impl_at w m =? NULL
      then Some (EvCas m NULL c true, AtReload, with_impl w m c)
      else Some (EvCas m NULL c false, AtDestroy c, w)
  | AtDestroy c =>
      Some (EvPthread (pthread_mutex_destroy c)
              (status rho (pthread_mutex_destroy c)),
            AtFree c, w)
  | AtFree c => Some (EvSliceFree c, AtReload, with_live w (live w ∖ {[c]}))
  | AtReload => Some (EvLoad m (impl_at w m), AtReturn true (impl_at w m), w)
  | AtReturn _ _ => None
  end.

(** The candidate a thread holds: built, and not yet published or freed. *)
Definition candidate (p : pc) : option ptr :=
  match p with
  | AtAttrInit c | AtSetType c | AtMutexInit c | AtAttrDestroy c | AtCas c
  | AtDestroy c | AtFree c => Some c
  | _ => None
  end.

(** The thread has made its compare-and-exchange. *)
Definition past_cas (p : pc) : bool :=
  match p with
  | AtDestroy _ | AtFree _ | AtReload | AtReturn true _ => true
  | _ => false
  end.

(** The thread lost and is on its way to free its candidate. *)
Definition freeing (p : pc) : option ptr :=
  match p with
  | AtDestroy c | AtFree c => Some c
  | _ => None
  end.

(** The native calls a thread has still to make, at most. *)
Definition remaining (p : pc) : nat :=
  match p with
  | AtLoad => 11
  | AtTest _ => 10
  | AtNew => 9
  | AtAttrInit _ => 8
  | AtSetType _ => 7
  | AtMutexInit _ => 6
  | AtAttrDestroy _ => 5
  | AtCas _ => 4
  | AtDestroy _ => 3
  | AtFree _ => 2
  | AtReload => 1
  | AtReturn _ _ => 0
  end.

(** A thread that holds the published handle wherever it holds a value. *)
Definition settled (h : ptr) (p : pc) : Prop :=
  match p with
  | AtTest v | AtReturn _ v => v = h
  | _ => True
  end.

(** *** What holds of every reachable state *)

(** [tr] is the trace so far, [w] the shared world, [pcs] the places of the
    threads, [m] the mutex. *)
Record Inv (m : ptr) (tr : list (nat * event)) (w : world) (pcs : list pc)
  : Prop := {
  inv_impl : impl_at w m = NULL \/ impl_at w m ∈ live w;
  inv_cand : forall t p c,
    pcs !! t = Some p -> candidate p = Some c ->
    c <> NULL /\ c ∈ live w /\ c <> impl_at w m /\ In (t, EvSliceNew c) tr;
  inv_distinct : forall t1 t2 p1 p2 c,
    t1 <> t2 -> pcs !! t1 = Some p1 -> pcs !! t2 = Some p2 ->
    candidate p1 = Some c -> candidate p2 = Some c -> False;
  inv_past : forall t p,
    pcs !! t = Some p -> past_cas p = true -> impl_at w m <> NULL;
  inv_ret : forall t v,
    pcs !! t = Some (AtReturn true v) -> v = impl_at w m;
  inv_count : forall t p,
    pcs !! t = Some p ->
    cas_count t tr = if past_cas p then 1%nat else 0%nat;
  inv_budget : forall t p,
    pcs !! t = Some p -> (steps_by t tr + remaining p <= 11)%nat;
  inv_fresh : forall t p,
    pcs !! t = Some p -> steps_by t tr = 0%nat -> p = AtLoad;
  inv_cas : forall t m' o c ok,
    In (t, EvCas m' o c ok) tr ->
    m' = m /\ o = NULL /\ c <> NULL /\ In (t, EvSliceNew c) tr /\
    (exists p, pcs !! t = Some p /\ past_cas p = true) /\
    (ok = false ->
     c <> impl_at w m /\
     ((exists p, pcs !! t = Some p /\ freeing p = Some c) \/
      In (t, EvSliceFree c) tr));
  inv_loads : forall t m' v,
    In (t, EvLoad m' v) tr -> m' = m /\ (v = NULL \/ v = impl_at w m);
  inv_frees : forall t c,
    In (t, EvSliceFree c) tr -> c <> impl_at w m /\ impl_at w m <> NULL;
  inv_wins :
    (impl_at w m = NULL /\ wins tr = []) \/
    (impl_at w m <> NULL /\ exists t0, wins tr = [(t0, impl_at w m)])
}.

(** *** Two schedules of two threads *)

(** A native layer in which every call succeeds and the allocator hands out
    block [b]. *)
Definition handing_out (b : ptr) : env :=
  {| status := fun _ => 0; key_created := (0, 1); block := b; stack_min := 16384 |}.

Definition turns (t : nat) (b : ptr) (k : nat) : list (nat * env) :=
  replicate k (t, handing_out b).

(** Both threads see NULL at the test; thread 0 publishes block 4096, thread 1
    loses with block 8192, frees it and re-reads. *)
Definition both_allocate : list (nat * env) :=
  turns 0 4096 2 ++ turns 1 8192 2 ++ turns 0 4096 6 ++ turns 1 8192 9
  ++ turns 0 4096 1.

(** Thread 0 reads the field at line 260, thread 1 then runs the whole
    function and publishes block 4096, thread 0 then makes the test of line
    262. *)
Definition overtaken_between_reads : list (nat * env) :=
  turns 0 8192 1 ++ turns 1 4096 9 ++ turns 0 8192 1.

(** ** Reading traces *)

Definition is_alloc (ev : event) : bool :=
  match ev with EvSliceNew _ => true | _ => false end.

Definition is_free (ev : event) : bool :=
  match ev with EvSliceFree _ => true | _ => false end.

Definition is_setstacksize (ev : event) : bool :=
  match ev with EvPthread (pthread_attr_setstacksize _) _ => true | _ => false end.

(** The pthread functions called, in order, without their statuses. *)
Definition calls_of (tr : list event) : list pcall :=
  omap (fun ev => match ev with EvPthread c _ => Some c | _ => None end) tr.

Definition count_events (f : event -> bool) (tr : list event) : nat :=
  length (List.filter f tr).

(** ** The calls of GRWLock *)

Inductive rw_op : Type :=
| Call_g_rw_lock_init
| Call_g_rw_lock_clear
| Call_g_rw_lock_writer_lock
| Call_g_rw_lock_writer_trylock
| Call_g_rw_lock_writer_unlock
| Call_g_rw_lock_reader_lock
| Call_g_rw_lock_reader_trylock
| Call_g_rw_lock_reader_unlock.

(** The call on [lock]; its result is [Some b] for the two that return a
    [gboolean], [None] for the six that return [void]. *)
Definition rw_prog (op : rw_op) (lock : ptr) : prog (option bool) :=
  match op with
  | Call_g_rw_lock_init => g_rw_lock_init lock;; mret None
  | Call_g_rw_lock_clear => g_rw_lock_clear lock;; mret None
  | Call_g_rw_lock_writer_lock => g_rw_lock_writer_lock lock;; mret None
  | Call_g_rw_lock_writer_trylock => b ← g_rw_lock_writer_trylock lock; mret (Some b)
  | Call_g_rw_lock_writer_unlock => g_rw_lock_writer_unlock lock;; mret None
  | Call_g_rw_lock_reader_lock => g_rw_lock_reader_lock lock;; mret None
  | Call_g_rw_lock_reader_trylock => b ← g_rw_lock_reader_trylock lock; mret (Some b)
  | Call_g_rw_lock_reader_unlock => g_rw_lock_reader_unlock lock;; mret None
  end.

Definition rw_native (op : rw_op) (lock : ptr) : pcall :=
  match op with
  | Call_g_rw_lock_init => pthread_rwlock_init lock
  | Call_g_rw_lock_clear => pthread_rwlock_destroy lock
  | Call_g_rw_lock_writer_lock => pthread_rwlock_wrlock lock
  | Call_g_rw_lock_writer_trylock => pthread_rwlock_trywrlock lock
  | Call_g_rw_lock_writer_unlock => pthread_rwlock_unlock lock
  | Call_g_rw_lock_reader_lock => pthread_rwlock_rdlock lock
  | Call_g_rw_lock_reader_trylock => pthread_rwlock_tryrdlock lock
  | Call_g_rw_lock_reader_unlock => pthread_rwlock_unlock lock
  end.

Definition rw_returns_bool (op : rw_op) : bool :=
  match op with
  | Call_g_rw_lock_writer_trylock | Call_g_rw_lock_reader_trylock => true
  | _ => false
  end.

(** ** Deadlines *)

Definition USEC_PER_SEC : Z := 1000000.
Definition NSEC_PER_SEC : Z := 1000000000.

(** The greatest [gint64]. *)
Definition G_MAXINT64 : Z := 2 ^ 63 - 1.

(** The instant a [timespec] denotes, in nanoseconds. *)
Definition timespec_ns (sec nsec : Z) : Z := sec * NSEC_PER_SEC + nsec.

(** The deadline handed to [pthread_cond_timedwait], if the run reached it. *)
Definition deadline_of (tr : list event) : option (Z * Z) :=
  match calls_of tr with
  | pthread_cond_timedwait _ _ sec nsec :: _ => Some (sec, nsec)
  | _ => None
  end.

Definition is_setstacksize_call (c : pcall) : bool :=
  match c with pthread_attr_setstacksize _ => true | _ => false end.

(** The pthread functions called, [pthread_attr_setstacksize] left out. *)
Definition calls_but_stacksize (tr : list event) : list pcall :=
  List.filter (fun c => negb (is_setstacksize_call c)) (calls_of tr).

(** ** The blocks of the lazy allocation *)

(** Some thread other than [t] holds candidate [x]. *)
Definition held_by_other (pcs : list pc) (t : nat) (x : ptr) : Prop :=
  exists t0 p0, t0 <> t /\ pcs !! t0 = Some p0 /\ candidate p0 = Some x.

Definition held (pcs : list pc) (x : ptr) : Prop :=
  exists t0 p0, pcs !! t0 = Some p0 /\ candidate p0 = Some x.

(** Where the allocated blocks come from, [w0] being the world the threads
    started in: a block is allocated exactly if it was so at the start, or is
    the published handle, or is a candidate some thread holds; the handle and
    the candidates are blocks that were not allocated at the start; a thread
    that has returned has seen the handle published. *)
Record LiveInv (m : ptr) (w0 w : world) (pcs : list pc) : Prop := {
  li_live : forall x,
    x ∈ live w <->
    x ∈ live w0 \/ (x = impl_at w m /\ impl_at w m <> NULL) \/ held pcs x;
  li_cand_new : forall t p c,
    pcs !! t = Some p -> candidate p = Some c -> c ∉ live w0;
  li_impl_new : impl_at w m <> NULL -> impl_at w m ∉ live w0;
  li_returned : forall t b v,
    pcs !! t = Some (AtReturn b v) -> impl_at w m <> NULL
}.

(** What the threads have read, [tr] being the trace so far: a thread at
    the test has made one call, the read of line 260, and holds its result; a
    thread that has returned has seen the handle published and returns a value
    it read from the field, and when it returns without having allocated it
    has made two calls, the two reads. *)
Record ReadInv (m : ptr) (tr : list (nat * event)) (w : world) (pcs : list pc)
  : Prop := {
  ri_load : forall t, pcs !! t = Some AtLoad -> steps_by t tr = 0%nat;
  ri_test : forall t v,
    pcs !! t = Some (AtTest v) -> steps_by t tr = 1%nat /\ In (t, EvLoad m v) tr;
  ri_return : forall t b v,
    pcs !! t = Some (AtReturn b v) ->
    impl_at w m <> NULL /\ In (t, EvLoad m v) tr /\
    (b = false -> steps_by t tr = 2%nat)
}.

(** ** More concrete inputs *)

(** A world in which the recursive mutex at 700 has block 4096. *)
Definition world_allocated : world :=
  with_impl (with_live world0 {[4096]}) 700 4096.

(** A native layer in which every pthread function reports [s]. *)
Definition all_report (s : Z) : env :=
  {| status := fun _ => s; key_created := (s, 1); block := 4096;
     stack_min := 16384 |}.

(** The schedule [both_allocate] up to the point where thread 1, having lost,
    is about to free its candidate. *)
Definition until_loser_frees : list (nat * env) :=
  turns 0 4096 2 ++ turns 1 8192 2 ++ turns 0 4096 6 ++ turns 1 8192 7.

(** * Properties *)

(** ** Sequential calls *)

(** Unfolds the monad and runs the handler on what is known. *)
Ltac step_run :=
  cbn [run handle observe trace out final mbind mret prog_mbind prog_mret
       prog_bind call abort fst snd negb].

Ltac case_status :=
  repeat match goal with
         | |- context [?a =? ?b] => destruct (Z.eqb_spec a b); step_run
         end.

Ltac case_flags :=
  repeat match goal with
         | |- context [HAVE_PTHREAD_ATTR_SETSTACKSIZE ?P] =>
             destruct (HAVE_PTHREAD_ATTR_SETSTACKSIZE P); step_run
         | |- context [HAVE_SC_THREAD_STACK_MIN ?P] =>
             destruct (HAVE_SC_THREAD_STACK_MIN P); step_run
         end.

Ltac case_max :=
  repeat match goal with
         | |- context [?a >? ?b] => destruct (Z.gtb_spec a b); step_run
         end.

(** Membership in a trace that is known: one case per event. *)
Ltac split_in H :=
  cbn in H;
  repeat match type of H with
         | _ \/ _ => destruct H as [H|H]; [try discriminate H|]
         | False => destruct H
         end.

Ltac not_in_trace :=
  intros; let H := fresh "Hin" in intro H; split_in H.

Section Sequential.
Variable P : platform.
Variables (rho : env) (t : nat) (w : world).

(** The run of [g_thread_abort]: the diagnostic, then the end of the process. *)
Lemma run_g_thread_abort (A : Type) (s : Z) (function : string) :
  run rho t (g_thread_abort P s function : prog A) w =
  {| trace := [EvStderr (diagnostic P s function); EvAbort];
     out := Aborted; final := w |}.
Proof. reflexivity. Qed.

(** C5: [g_mutex_trylock] returns TRUE exactly on status 0, FALSE exactly on
    [EBUSY], and aborts through [g_thread_abort] on every other status. *)
Theorem g_mutex_trylock_status (mutex : ptr) :
  platform_ok P ->
  let s := status rho (pthread_mutex_trylock mutex) in
  let r := run rho t (g_mutex_trylock P mutex) w in
  (out r = Returned true <-> s = 0) /\
  (out r = Returned false <-> s = EBUSY P) /\
  (out r = Aborted <-> s <> 0 /\ s <> EBUSY P) /\
  (s = 0 \/ s = EBUSY P ->
   trace r = [EvPthread (pthread_mutex_trylock mutex) s]) /\
  (s <> 0 -> s <> EBUSY P ->
   trace r = EvPthread (pthread_mutex_trylock mutex) s
             :: trace (run rho t (g_thread_abort P s "pthread_mutex_trylock" : prog unit) w)).
Proof.
  intros (_ & Hbusy & _) s r. subst r. unfold g_mutex_trylock. step_run.
  fold s. case_status.
  all: unfold g_thread_abort; step_run.
  all: repeat split; intros; try discriminate; try congruence; try lia; try tauto.
  all: try (destruct H; congruence).
Qed.

(** C4: [g_cond_timed_wait] with a deadline returns TRUE when
    [pthread_cond_timedwait] reports 0, FALSE when it reports [ETIMEDOUT], and
    aborts on any other status; with a null deadline it is [g_cond_wait]
    followed by [return TRUE]. *)
Theorem g_cond_timed_wait_status (cond mutex : ptr) (abs_time : option GTimeVal) :
  platform_ok P ->
  let r := run rho t (g_cond_timed_wait P cond mutex abs_time) w in
  match abs_time with
  | Some tv =>
      let c := pthread_cond_timedwait cond mutex (tv_sec tv)
                 (to_glong P (tv_usec tv * 1000)) in
      let s := status rho c in
      (s = 0 -> out r = Returned true /\ trace r = [EvPthread c s]) /\
      (s = ETIMEDOUT P -> out r = Returned false /\ trace r = [EvPthread c s]) /\
      (s <> 0 -> s <> ETIMEDOUT P ->
       out r = Aborted /\
       trace r = EvPthread c s
                 :: trace (run rho t (g_thread_abort P s "pthread_cond_timedwait" : prog unit) w))
  | None =>
      let rw := run rho t (g_cond_wait P cond mutex) w in
      trace r = trace rw /\ final r = final rw /\
      out r = match out rw with
              | Returned _ => Returned true
              | Aborted => Aborted
              end /\
      (status rho (pthread_cond_wait cond mutex) = 0 -> out r = Returned true)
  end.
Proof.
  intros (_ & _ & Htimed & _) r. subst r. destruct abs_time as [tv|].
  - unfold g_cond_timed_wait. step_run. case_status.
    all: unfold g_thread_abort; step_run.
    all: repeat split; intros; try congruence; try lia.
  - unfold g_cond_timed_wait, g_cond_wait. step_run. case_status.
    all: unfold g_thread_abort; step_run.
    all: repeat split; intros; congruence.
Qed.

(** C10: with a null [thread_func] the function logs the failed
    precondition and returns: no pthread function is called, no thread is
    created, [g_set_error] is not called, the process goes on. *)
Theorem g_system_thread_create_null_func (arg : ptr) (stack_size : Z)
    (joinable : bool) (thread : ptr) :
  let r := run rho t (g_system_thread_create P NULL arg stack_size joinable thread) w in
  out r = Returned tt /\ final r = w /\
  trace r = [EvLog G_LOG_LEVEL_CRITICAL
               "g_system_thread_create: assertion 'thread_func' failed"] /\
  (forall c s, ~ In (EvPthread c s) (trace r)) /\
  (forall d c msg, ~ In (EvSetError d c msg) (trace r)) /\
  ~ In EvAbort (trace r).
Proof.
  intros r. subst r. unfold g_system_thread_create, g_return_if_fail_warning.
  step_run. cbn.
  repeat split; try reflexivity; intros; intros [H|[]]; discriminate.
Qed.

(** C8: [g_rec_mutex_clear] destroys and frees the backing mutex exactly when
    the [impl] field is not null, and then it frees that very block; on a null
    field it reads the field and does nothing else. *)
Theorem g_rec_mutex_clear_frees (rec_mutex : ptr) :
  let r := run rho t (g_rec_mutex_clear rec_mutex) w in
  let impl := impl_at w rec_mutex in
  out r = Returned tt /\
  (forall p, In (EvSliceFree p) (trace r) <-> impl <> NULL /\ p = impl) /\
  (impl <> NULL ->
   trace r = [EvLoad rec_mutex impl; EvLoad rec_mutex impl;
              EvPthread (pthread_mutex_destroy impl)
                (status rho (pthread_mutex_destroy impl));
              EvSliceFree impl] /\
   live (final r) = live w ∖ {[impl]} /\
   impls (final r) = impls w /\ specific (final r) = specific w) /\
  (impl = NULL -> trace r = [EvLoad rec_mutex NULL] /\ final r = w).
Proof.
  intros r impl. subst r. unfold g_rec_mutex_clear, g_rec_mutex_impl_free.
  step_run. fold impl. destruct (Z.eqb_spec impl NULL) as [Hn|Hn]; step_run.
  - repeat split; intros; try congruence; try tauto.
    all: destruct H as [H|[]]; discriminate.
  - fold impl. repeat split; intros; try congruence; try tauto.
    + destruct H as [H|[H|[H|[H|[]]]]]; congruence.
    + destruct H as [_ ->]. simpl. tauto.
Qed.


(** [MAX] never yields less than its second argument, and is the maximum of
    the two when the first is a representable non-negative number. *)
Lemma MAX_lower (a b : Z) : b <= MAX P a b.
Proof. unfold MAX. destruct (Z.gtb_spec (to_gulong P a) b); lia. Qed.

Lemma MAX_is_max (a b : Z) :
  0 <= a < 2 ^ long_bits P -> MAX P a b = Z.max a b.
Proof.
  intros Ha. unfold MAX, to_gulong. rewrite Z.mod_small by exact Ha.
  destruct (Z.gtb_spec a b); lia.
Qed.

(** C1: once [pthread_create] has been called, a status of [EAGAIN] makes
    the function call [g_set_error] with [G_THREAD_ERROR_AGAIN] and return
    without ending the process; every other non-zero status of
    [pthread_create] ends the process.  The recoverable path is that of a
    creation in which nothing else fails: the [pthread_attr_destroy] checked
    between the call and the test of its status is, like every other native
    call of the creation, fatal when it fails. *)
Theorem g_system_thread_create_status (func arg : ptr) (stack_size : Z)
    (joinable : bool) (thread : ptr) :
  platform_ok P ->
  let r := run rho t (g_system_thread_create P func arg stack_size joinable thread) w in
  let ret := status rho (pthread_create thread func arg) in
  In (EvPthread (pthread_create thread func arg) ret) (trace r) ->
  (ret = EAGAIN P -> status rho pthread_attr_destroy = 0 ->
   out r = Returned tt /\
   In (EvSetError "G_THREAD_ERROR" "G_THREAD_ERROR_AGAIN"
         ("Error creating thread: " +:+ g_strerror P ret)) (trace r) /\
   ~ In EvAbort (trace r)) /\
  (ret <> 0 -> ret <> EAGAIN P ->
   out r = Aborted /\ In EvAbort (trace r) /\
   forall d c msg, ~ In (EvSetError d c msg) (trace r)) /\
  (ret = 0 -> status rho pthread_attr_destroy = 0 ->
   out r = Returned tt /\ ~ In EvAbort (trace r) /\
   forall d c msg, ~ In (EvSetError d c msg) (trace r)) /\
  (status rho pthread_attr_destroy <> 0 -> out r = Aborted).
Proof.
  intros (Hagain & _) r ret. subst r.
  unfold g_system_thread_create, g_return_if_fail_warning, posix_check_cmd,
    posix_check_err, g_error, MAX_expanded.
  case_status; case_flags; case_max; case_status; fold ret; case_status.
  all: intros Hin; split_in Hin.
  all: cbn; repeat split; intros; try congruence; try lia.
  all: try tauto.
  all: try not_in_trace.
Qed.


(** C9: whenever [pthread_attr_setstacksize] is called, the hint was not
    zero and the size applied is [MAX (sysconf (_SC_THREAD_STACK_MIN),
    stack_size)] where the platform has that name, the hint itself where it
    has not: never less than the hint, and the maximum of the two when the
    platform reports a minimum.  With a zero hint the call is not made; with
    a non-zero hint it is made as soon as the attributes exist and the
    platform has the function. *)
Theorem g_system_thread_create_stack_size (func arg : ptr) (stack_size : Z)
    (joinable : bool) (thread : ptr) :
  let r := run rho t (g_system_thread_create P func arg stack_size joinable thread) w in
  (forall sz s, In (EvPthread (pthread_attr_setstacksize sz) s) (trace r) ->
     stack_size <> 0 /\ stack_size <= sz /\
     HAVE_PTHREAD_ATTR_SETSTACKSIZE P = true /\
     (HAVE_SC_THREAD_STACK_MIN P = true ->
      sz = MAX P (stack_min rho) stack_size /\
      (0 <= stack_min rho < 2 ^ long_bits P ->
       sz = Z.max (stack_min rho) stack_size)) /\
     (HAVE_SC_THREAD_STACK_MIN P = false -> sz = stack_size)) /\
  (stack_size = 0 ->
   forall sz s, ~ In (EvPthread (pthread_attr_setstacksize sz) s) (trace r)) /\
  (stack_size <> 0 -> HAVE_PTHREAD_ATTR_SETSTACKSIZE P = true ->
   func <> NULL -> status rho pthread_attr_init = 0 ->
   exists sz s, In (EvPthread (pthread_attr_setstacksize sz) s) (trace r)).
Proof.
  intros r.
  assert (Hall : forall sz s, In (EvPthread (pthread_attr_setstacksize sz) s) (trace r) ->
     stack_size <> 0 /\ stack_size <= sz /\
     HAVE_PTHREAD_ATTR_SETSTACKSIZE P = true /\
     (HAVE_SC_THREAD_STACK_MIN P = true ->
      sz = MAX P (stack_min rho) stack_size /\
      (0 <= stack_min rho < 2 ^ long_bits P ->
       sz = Z.max (stack_min rho) stack_size)) /\
     (HAVE_SC_THREAD_STACK_MIN P = false -> sz = stack_size)).
  { subst r. intros sz s.
    unfold g_system_thread_create, g_return_if_fail_warning, posix_check_cmd,
      posix_check_err, g_error, MAX_expanded.
    pose proof (MAX_lower (stack_min rho) stack_size) as Hlow.
    pose proof (MAX_is_max (stack_min rho) stack_size) as Hmax.
    unfold MAX in *.
    destruct (HAVE_PTHREAD_ATTR_SETSTACKSIZE P), (HAVE_SC_THREAD_STACK_MIN P);
      step_run; case_status;
      try (destruct (to_gulong P (stack_min rho) >? stack_size); step_run;
           case_status).
    all: intros Hin; split_in Hin.
    all: injection Hin as <- _.
    all: repeat split; intros; try congruence; try lia; auto. }
  split; [exact Hall|]. split.
  - intros Hz sz s Hin. destruct (Hall sz s Hin) as (Hnz & _). contradiction.
  - intros Hnz Hhave Hfunc Hinit. subst r.
    unfold g_system_thread_create, g_return_if_fail_warning, posix_check_cmd,
      posix_check_err, g_error, MAX_expanded.
    rewrite Hhave.
    destruct (Z.eqb_spec func NULL) as [|_]; [contradiction|].
    step_run. rewrite Hinit. step_run.
    destruct (Z.eqb_spec stack_size 0) as [|_]; [contradiction|].
    destruct (HAVE_SC_THREAD_STACK_MIN P); cbn;
      try (destruct (to_gulong P (stack_min rho) >? stack_size); cbn).
    all: eexists; eexists; repeat (first [left; reflexivity|right]).
Qed.


(** C3, as the code has it: every call of GMutex and GCond, and
    [g_private_set] on a ready slot, makes its native call and, when the
    status is not one it has a return value for, goes through
    [g_thread_abort]: the diagnostic is printed and the process ends.  On an
    expected status it returns and prints nothing. *)
Theorem checked_ops_abort_on_unexpected (op : checked_op) :
  reaches_native op ->
  let s := status rho (op_native P op) in
  let r := run rho t (op_prog P op) w in
  In (EvPthread (op_native P op) s) (trace r) /\
  (op_expected P op s = false ->
   out r = Aborted /\
   exists before,
     trace r = before ++ [EvPthread (op_native P op) s;
                          EvStderr (diagnostic P s (op_function op));
                          EvAbort] /\
     forall d, ~ In (EvStderr d) before) /\
  (op_expected P op s = true ->
   out r = Returned tt /\ ~ In EvAbort (trace r) /\
   forall d, ~ In (EvStderr d) (trace r)).
Proof.
  intros Hready s r. subst s r.
  destruct op as [m|m|m|m|m|c|c|c m|c|c|c m [tv|]|c m abs|slot v];
    unfold op_prog, op_native, op_expected, op_function, reaches_native in *;
    unfold g_cond_timed_wait, g_cond_timedwait, g_mutex_init, g_mutex_clear,
      g_mutex_lock, g_mutex_unlock, g_mutex_trylock, g_cond_init, g_cond_clear,
      g_cond_wait, g_cond_signal, g_cond_broadcast, g_private_set,
      g_thread_abort;
    fold (diagnostic P);
    try rewrite Hready;
    try (destruct (PTHREAD_ADAPTIVE_MUTEX_INITIALIZER_NP P));
    try (destruct (PTHREAD_ADAPTIVE_MUTEX_NP P));
    step_run; case_status.
  all: cbn; rewrite ?orb_false_r.
  all: split; [tauto|].
  all: split; intros Hexp; try discriminate Hexp;
    try (apply Z.eqb_eq in Hexp; congruence);
    try (apply Z.eqb_neq in Hexp; congruence).
  all: split; [reflexivity|].
  all: try (split; not_in_trace).
  all: try (exists []; split; [reflexivity|]; not_in_trace).
  all: eexists [_; _]; split; [reflexivity|]; not_in_trace.
Qed.

End Sequential.

(** ** The thread-local slot *)

Lemma specific_at_insert (w : world) (k : Z) (t t' : nat) (v : ptr) :
  specific_at {| impls := impls w; live := live w;
                 specific := <[(k, t) := v]> (specific w) |} k t' =
  if Nat.eqb t t' then v else specific_at w k t'.
Proof.
  unfold specific_at. cbn. destruct (Nat.eqb_spec t t') as [->|Hne].
  - by rewrite lookup_insert_eq.
  - rewrite lookup_insert_ne; [done|congruence].
Qed.

Lemma specific_at_drop_key (w : world) (k : Z) (t : nat) :
  specific_at {| impls := impls w; live := live w;
                 specific := drop_key k (specific w) |} k t = NULL.
Proof.
  unfold specific_at, drop_key. cbn.
  rewrite (proj2 (map_lookup_filter_None _ _ _)); [done|].
  right. intros x _. cbn. congruence.
Qed.

Section Slot.
Variable P : platform.

(** On a ready slot a sequence of calls that all return leaves the slot as it
    was and, for each thread, the value that thread stored last. *)
Lemma run_slot_calls_ready (calls : list (nat * env * slot_call)) :
  forall (slot slot2 : GPrivate) (w w2 : world),
    ready slot = true ->
    run_slot_calls P slot calls w = Some (slot2, w2) ->
    slot2 = slot /\
    forall t, specific_at w2 (key slot) t =
              last_set_from (specific_at w (key slot) t) t calls.
Proof.
  induction calls as [|[[t' rho'] [|v]] rest IH]; intros slot slot2 w w2 Hready Hrun.
  - injection Hrun as <- <-. auto.
  - cbn in Hrun. unfold g_private_get in Hrun. rewrite Hready in Hrun.
    cbn in Hrun. exact (IH _ _ _ _ Hready Hrun).
  - cbn in Hrun. unfold g_private_set in Hrun. rewrite Hready in Hrun.
    cbn in Hrun.
    destruct (Z.eqb_spec (status rho' (pthread_setspecific (key slot) v)) 0)
      as [Hs|Hs]; cbn in Hrun; [|discriminate].
    destruct (IH _ _ _ _ Hready Hrun) as [-> Hval]. split; [done|].
    intros t. rewrite Hval. cbn [last_set_from]. f_equal.
    apply specific_at_insert.
Qed.

(** The two modes of the slot.  Before readiness [g_private_get] returns and
    [g_private_set] stores the one fallback value of the slot, whichever
    thread calls; [g_private_init] makes the slot ready; a ready slot never
    reads the fallback value; and when [pthread_key_create] has reported
    success [g_private_get] returns what the calling thread stored last
    through the slot, NULL if it stored nothing, so that a value stored before
    readiness is not what it returns afterwards. *)
Theorem g_private_two_modes (slot : GPrivate) (notify : ptr) :
  (ready slot = false ->
   (forall rho t w,
      run rho t (g_private_get slot) w =
      {| trace := []; out := Returned (single_value slot); final := w |}) /\
   (forall rho t w v,
      run rho t (g_private_set P slot v) w =
      {| trace := [];
         out := Returned {| single_value := v; ready := false; key := key slot |};
         final := w |}) /\
   (forall rho t w v rho' t',
      out (run rho' t'
             (g_private_get {| single_value := v; ready := false; key := key slot |})
             (final (run rho t (g_private_set P slot v) w))) = Returned v)) /\
  (forall rho t w,
     let r := run rho t (g_private_init slot notify) w in
     exists slot1,
       out r = Returned slot1 /\ ready slot1 = true /\
       single_value slot1 = single_value slot /\
       ((key_created rho).1 = 0 ->
        key slot1 = (key_created rho).2 /\
        forall calls slot2 w2,
          run_slot_calls P slot1 calls (final r) = Some (slot2, w2) ->
          forall rho' t',
            run rho' t' (g_private_get slot2) w2 =
            {| trace := [EvGetSpecific (key slot1) (last_set t' calls)];
               out := Returned (last_set t' calls);
               final := w2 |})) /\
  (ready slot = true ->
   forall rho t w,
     out (run rho t (g_private_get slot) w) = Returned (specific_at w (key slot) t) /\
     forall fallback,
       run rho t (g_private_get {| single_value := fallback; ready := true;
                                   key := key slot |}) w =
       run rho t (g_private_get slot) w).
Proof.
  split; [|split].
  - intros Hready. unfold g_private_get, g_private_set. rewrite Hready.
    cbn. repeat split; reflexivity.
  - intros rho t w r. subst r. unfold g_private_init. step_run.
    eexists. split; [reflexivity|]. cbn. split; [done|]. split; [done|].
    intros Hok. rewrite Hok. cbn. split; [done|].
    intros calls slot2 w2 Hrun rho' t'.
    apply run_slot_calls_ready in Hrun; [|done].
    destruct Hrun as [-> Hval]. cbn in Hval.
    unfold g_private_get. cbn. rewrite Hval.
    rewrite specific_at_drop_key. reflexivity.
  - intros Hready rho t w. unfold g_private_get. rewrite Hready. cbn. auto.
Qed.

End Slot.

(** ** The calls at particular inputs *)

(** C2, at the failing input: [pthread_mutex_unlock] reports [EPERM] and the
    diagnostic of [g_mutex_unlock] names [pthread_mutex_lock]; it is, letter
    for letter, the diagnostic [g_mutex_lock] prints for the same status. *)
Theorem g_mutex_unlock_diagnostic_names_lock :
  let r := run (failing "pthread_mutex_unlock" EPERM) 0%nat
             (g_mutex_unlock linux 500) world0 in
  let r' := run (failing "pthread_mutex_lock" EPERM) 0%nat
              (g_mutex_lock linux 500) world0 in
  trace r =
    [EvPthread (pthread_mutex_unlock 500) EPERM;
     EvStderr ("GLib (gthread-posix.c): Unexpected error from C library during "
               +:+ "'Operation not permitted': pthread_mutex_lock.  Aborting."
               +:+ newline);
     EvAbort] /\
  out r = Aborted /\
  tail (trace r) = tail (trace r').
Proof. cbv zeta. repeat split; reflexivity. Qed.

(** C7, at the failing input: one slot of the process holds key 0 and
    thread 1 has stored 5 through it.  [g_private_init] on a second slot,
    never touched before, finds no key left: [pthread_key_create] reports
    [EAGAIN] and stores nothing, the slot is marked ready all the same, and
    its key field still reads 0.  [g_private_get] on that slot then returns 5
    to thread 1, which never called [g_private_set] on it. *)
Theorem g_private_get_after_failed_key_create :
  let r1 := run (creating_key 0) 0%nat (g_private_init untouched_slot NULL) world0 in
  let first := {| single_value := NULL; ready := true; key := 0 |} in
  let r2 := run all_succeed 1%nat (g_private_set linux first 5) (final r1) in
  let r3 := run (key_create_fails (EAGAIN linux)) 0%nat
              (g_private_init untouched_slot NULL) (final r2) in
  let second := {| single_value := NULL; ready := true; key := 0 |} in
  out r1 = Returned first /\ out r2 = Returned first /\
  trace r3 = [EvKeyCreate (EAGAIN linux) 0] /\ out r3 = Returned second /\
  out (run all_succeed 1%nat (g_private_get second) (final r3)) = Returned 5 /\
  5 <> NULL.
Proof. cbv zeta. repeat split; try reflexivity. discriminate. Qed.

(** C3, against the claim as worded: the native call reports [EDEADLK] and
    [g_rw_lock_writer_lock], [g_rw_lock_reader_unlock] and [g_rec_mutex_lock]
    return as if nothing had happened: nothing on stderr, no abort. *)
Lemma unchecked_ops_ignore_status :
  let r1 := run (failing "pthread_rwlock_wrlock" EDEADLK) 0%nat
              (g_rw_lock_writer_lock 600) world0 in
  let r2 := run (failing "pthread_rwlock_unlock" EDEADLK) 0%nat
              (g_rw_lock_reader_unlock 600) world0 in
  let r3 := run (failing "pthread_mutex_lock" EDEADLK) 0%nat
              (g_rec_mutex_lock 700) world0 in
  (trace r1 = [EvPthread (pthread_rwlock_wrlock 600) EDEADLK] /\
   out r1 = Returned tt) /\
  (trace r2 = [EvPthread (pthread_rwlock_unlock 600) EDEADLK] /\
   out r2 = Returned tt) /\
  (In (EvPthread (pthread_mutex_lock 4096) EDEADLK) (trace r3) /\
   ~ In EvAbort (trace r3) /\ out r3 = Returned tt).
Proof.
  cbv zeta. repeat split; try reflexivity.
  - vm_compute. tauto.
  - intros H. vm_compute in H. split_in H.
Qed.

(** ** The lazy allocation of the recursive mutex, threads interleaved *)

Lemma in_snoc {A : Type} (x l : A) (tr : list A) :
  In x (tr ++ [l]) <-> In x tr \/ x = l.
Proof. rewrite in_app_iff. cbn. intuition. Qed.

Lemma steps_by_snoc (t t' : nat) (ev : event) (tr : list (nat * event)) :
  steps_by t (tr ++ [(t', ev)]) =
  (steps_by t tr + if Nat.eqb t' t then 1 else 0)%nat.
Proof.
  unfold steps_by. rewrite List.filter_app, length_app. cbn.
  destruct (Nat.eqb t' t); reflexivity.
Qed.

Lemma cas_count_snoc (t t' : nat) (ev : event) (tr : list (nat * event)) :
  cas_count t (tr ++ [(t', ev)]) =
  (cas_count t tr + if Nat.eqb t' t && is_cas ev then 1 else 0)%nat.
Proof.
  unfold cas_count. rewrite List.filter_app, length_app. cbn.
  destruct (Nat.eqb t' t && is_cas ev); reflexivity.
Qed.

Lemma wins_snoc (l : nat * event) (tr : list (nat * event)) :
  wins (tr ++ [l]) = wins tr ++ match cas_won l with Some x => [x] | None => [] end.
Proof. unfold wins. rewrite omap_app. cbn. destruct (cas_won l); reflexivity. Qed.

Lemma lookup_insert_cases (pcs : list pc) (t t0 : nat) (p p' p0 : pc) :
  pcs !! t = Some p ->
  <[t := p']> pcs !! t0 = Some p0 ->
  (t0 = t /\ p0 = p') \/ (t0 <> t /\ pcs !! t0 = Some p0).
Proof.
  intros Hp H. destruct (decide (t0 = t)) as [->|Hne].
  - left. rewrite list_lookup_insert_eq in H by (eapply lookup_lt_Some; eauto).
    split; congruence.
  - right. by rewrite list_lookup_insert_ne in H.
Qed.

Lemma lookup_insert_same (pcs : list pc) (t : nat) (p p' : pc) :
  pcs !! t = Some p -> <[t := p']> pcs !! t = Some p'.
Proof. intros Hp. apply list_lookup_insert_eq. eapply lookup_lt_Some; eauto. Qed.

Lemma lookup_insert_other (pcs : list pc) (t t0 : nat) (p' : pc) :
  t0 <> t -> <[t := p']> pcs !! t0 = pcs !! t0.
Proof. intros Hne. apply list_lookup_insert_ne. congruence. Qed.

Lemma impl_at_with_live (w : world) (l : gset Z) (m : ptr) :
  impl_at (with_live w l) m = impl_at w m.
Proof. reflexivity. Qed.

Lemma impl_at_with_impl (w : world) (m c : ptr) :
  impl_at (with_impl w m c) m = c.
Proof. unfold impl_at, with_impl. cbn. by rewrite lookup_insert_eq. Qed.

Lemma live_add (c b : Z) (l : gset Z) : c ∈ l -> c ∈ ({[b]} ∪ l : gset Z).
Proof. set_solver. Qed.

Lemma live_add_self (b : Z) (l : gset Z) : b ∈ ({[b]} ∪ l : gset Z).
Proof. set_solver. Qed.

Lemma live_remove (c d : Z) (l : gset Z) : c ∈ l -> c <> d -> c ∈ l ∖ {[d]}.
Proof. set_solver. Qed.

(** Tactics for the case analysis over the places. *)
Ltac open_inv HI :=
  destruct HI as [Himpl Hcand Hdist Hpast Hret Hcount Hbudget Hfresh Hcas
                    Hloads Hfrees Hwins].

Ltac finish :=
  repeat split;
  try first [ assumption | tauto | congruence | lia
            | apply live_add; assumption | apply live_add_self ].

Ltac by_cases p Hp Hstep Hcand Hpast :=
  let Hmine := fresh "Hmine" in
  let Hpastme := fresh "Hpastme" in
  pose proof (fun c => Hcand _ _ c Hp) as Hmine;
  pose proof (Hpast _ _ Hp) as Hpastme;
  destruct p; cbn in Hstep; try discriminate Hstep;
  try match type of Hstep with
      | context [Z.eqb ?a ?b] => destruct (Z.eqb_spec a b) as [Hnull|Hnull]
      end;
  injection Hstep as <- <- <-;
  cbn [candidate past_cas freeing remaining] in *;
  try match goal with
      | H : forall c, Some ?x = Some c -> _ |- _ => specialize (H _ eq_refl)
      end;
  try match goal with
      | H : true = true -> _ |- _ => specialize (H eq_refl)
      end;
  try match goal with
      | H : AtNew = AtNew -> _ |- _ => destruct (H eq_refl)
      end.

Ltac use_lookup Hp H :=
  apply (lookup_insert_cases _ _ _ _ _ _ Hp) in H;
  destruct H as [[-> ->]|[? H]].

Section Race.
Variable m : ptr.

(** The places are the programs the threads run through. *)
Lemma thread_step_at_pc (rho : env) (t : nat) (w : world) (p : pc) :
  thread_step rho t w (at_pc m p) =
  match pc_step m rho w p with
  | Some (ev, p', w') => Some (ev, at_pc m p', w')
  | None => None
  end.
Proof.
  destruct p; cbn; try reflexivity.
  all: destruct (Z.eqb _ _); reflexivity.
Qed.


(** Every step keeps the invariant. *)
Lemma Inv_step (tr : list (nat * event)) (w w' : world) (pcs : list pc)
    (t : nat) (p p' : pc) (rho : env) (ev : event) :
  Inv m tr w pcs ->
  pcs !! t = Some p ->
  (p = AtNew -> block rho <> NULL /\ block rho ∉ live w) ->
  pc_step m rho w p = Some (ev, p', w') ->
  Inv m (tr ++ [(t, ev)]) w' (<[t := p']> pcs).
Proof.
  intros HI Hp Halloc Hstep. open_inv HI. constructor.
  - (* inv_impl *)
    by_cases p Hp Hstep Hcand Hpast;
      rewrite ?impl_at_with_live, ?impl_at_with_impl; cbn [live with_live with_impl];
      try exact Himpl.
    + destruct Himpl; [by left|right; apply live_add; assumption].
    + right. tauto.
    + destruct Himpl as [|Hin]; [by left|right].
      apply live_remove; [assumption|]. intros Heq.
      destruct Hmine as (_ & _ & Hneq & _). congruence.
  - (* inv_cand *)
    intros t0 p0 c0 H0 Hc0.
    by_cases p Hp Hstep Hcand Hpast;
      rewrite ?impl_at_with_live, ?impl_at_with_impl; cbn [live with_live with_impl];
      rewrite in_snoc;
      use_lookup Hp H0; cbn in Hc0; try discriminate Hc0;
      try (injection Hc0 as <-);
      try (destruct (Hcand _ _ _ H0 Hc0) as (? & ? & ? & ?)).
    all: finish.
    + destruct Himpl; congruence.
    + intros ->. eapply (Hdist t0 t); eauto; reflexivity.
    + apply live_remove; [assumption|].
      intros ->. eapply (Hdist t0 t); eauto; reflexivity.
  - (* inv_distinct *)
    intros t1 t2 p1 p2 c0 Hne H1 H2 Hc1 Hc2.
    by_cases p Hp Hstep Hcand Hpast;
      use_lookup Hp H1; use_lookup Hp H2; try congruence;
      cbn in Hc1, Hc2; try discriminate;
      try (injection Hc1 as <-); try (injection Hc2 as <-).
    all: try (eapply (Hdist t1 t2); eauto; done).
    all: try (eapply (Hdist t t2); eauto; done).
    all: try (eapply (Hdist t1 t); eauto; done).
    all: match goal with
         | Hx : _ !! _ = Some ?q, Hy : candidate ?q = Some (block _) |- _ =>
             destruct (Hcand _ _ _ Hx Hy) as (_ & ? & _); contradiction
         end.
  - (* inv_past *)
    intros t0 p0 H0 Hpc.
    by_cases p Hp Hstep Hcand Hpast;
      rewrite ?impl_at_with_live, ?impl_at_with_impl;
      use_lookup Hp H0; cbn in Hpc; try discriminate Hpc;
      try assumption; try (exact (Hpast _ _ H0 Hpc)); try tauto.
  - (* inv_ret *)
    intros t0 v H0.
    apply (lookup_insert_cases _ _ _ _ _ _ Hp) in H0 as [[-> Heq]|[Hne H0]];
      by_cases p Hp Hstep Hcand Hpast;
      rewrite ?impl_at_with_live, ?impl_at_with_impl;
      try discriminate Heq; try congruence;
      try (exact (Hret _ _ H0)).
    exfalso. eapply Hpast; [exact H0|reflexivity|assumption].
  - (* inv_count *)
    intros t0 p0 H0. rewrite cas_count_snoc.
    by_cases p Hp Hstep Hcand Hpast;
      use_lookup Hp H0; cbn [is_cas past_cas];
      rewrite ?Nat.eqb_refl, ?andb_false_r; cbn [andb];
      try (rewrite (Hcount _ _ Hp); cbn [past_cas]; lia).
    all: try (rewrite (proj2 (Nat.eqb_neq t t0)) by congruence; cbn [andb];
              rewrite (Hcount _ _ H0); lia).
    all: try (rewrite (Hcount _ _ H0); lia).
  - (* inv_budget *)
    intros t0 p0 H0. rewrite steps_by_snoc.
    pose proof (Hbudget _ _ Hp) as Hb.
    by_cases p Hp Hstep Hcand Hpast;
      use_lookup Hp H0; rewrite ?Nat.eqb_refl; cbn [remaining] in *; try lia.
    all: try (rewrite (proj2 (Nat.eqb_neq t t0)) by congruence;
              pose proof (Hbudget _ _ H0); lia).
  - (* inv_fresh *)
    intros t0 p0 H0. rewrite steps_by_snoc. intros Hz.
    apply (lookup_insert_cases _ _ _ _ _ _ Hp) in H0 as [[-> Heq]|[Hne H0]].
    + rewrite Nat.eqb_refl in Hz. lia.
    + apply (Hfresh _ _ H0). lia.
  - (* inv_cas *)
    intros t0 m' o c0 ok Hin. rewrite in_snoc in Hin.
    destruct Hin as [Hin|Hin].
    + destruct (Hcas _ _ _ _ _ Hin) as (-> & -> & Hc0 & Hnew & (q & Hq & Hqpast) & Hlost).
      split; [reflexivity|]. split; [reflexivity|]. split; [assumption|].
      split; [rewrite in_snoc; tauto|].
      destruct (decide (t0 = t)) as [->|Hne].
      * assert (q = p) by congruence. subst q.
        split.
        { exists p'. split; [eapply lookup_insert_same; eauto|].
          by_cases p Hp Hstep Hcand Hpast; cbn in Hqpast; try discriminate;
            reflexivity. }
        intros Hok. destruct (Hlost Hok) as (Hneq & Hfree).
        split.
        { by_cases p Hp Hstep Hcand Hpast; cbn in Hqpast; try discriminate;
            rewrite ?impl_at_with_live; assumption. }
        destruct Hfree as [(p1 & Hp1 & Hf1)|Hfree];
          [|right; rewrite in_snoc; tauto].
        assert (p1 = p) by congruence. subst p1.
        by_cases p Hp Hstep Hcand Hpast; cbn in Hf1; try discriminate;
          injection Hf1 as ->.
        -- left. eexists. split; [eapply lookup_insert_same; eauto|reflexivity].
        -- right. rewrite in_snoc. tauto.
      * split.
        { exists q. split; [rewrite lookup_insert_other; assumption|assumption]. }
        intros Hok. destruct (Hlost Hok) as (Hneq & Hfree).
        pose proof (Hpast _ _ Hq Hqpast) as Hpub.
        split.
        { by_cases p Hp Hstep Hcand Hpast;
            rewrite ?impl_at_with_live; try assumption; contradiction. }
        destruct Hfree as [(p1 & Hp1 & Hf1)|Hfree];
          [left|right; rewrite in_snoc; tauto].
        exists p1. split; [rewrite lookup_insert_other; assumption|assumption].
    + injection Hin as -> Hev.
      by_cases p Hp Hstep Hcand Hpast; try discriminate Hev;
        injection Hev as -> -> -> ->;
        destruct Hmine as (Hc & Hlive & Hneq & Hnew);
        rewrite ?impl_at_with_impl.
      all: split; [reflexivity|]; split; [reflexivity|]; split; [assumption|];
        split; [rewrite in_snoc; tauto|];
        split; [eexists; split; [eapply lookup_insert_same; eauto|reflexivity]|].
      * intros Hok. discriminate Hok.
      * intros _. split; [assumption|]. left.
        eexists; split; [eapply lookup_insert_same; eauto|reflexivity].
  - (* inv_loads *)
    intros t0 m' v Hin. rewrite in_snoc in Hin. destruct Hin as [Hin|Hin].
    + destruct (Hloads _ _ _ Hin) as (-> & Hv). split; [reflexivity|].
      by_cases p Hp Hstep Hcand Hpast;
        rewrite ?impl_at_with_live, ?impl_at_with_impl; try assumption.
      left. destruct Hv; congruence.
    + injection Hin as -> Hev.
      by_cases p Hp Hstep Hcand Hpast; try discriminate Hev;
        injection Hev as -> ->; auto.
  - (* inv_frees *)
    intros t0 c0 Hin. rewrite in_snoc in Hin. destruct Hin as [Hin|Hin].
    + destruct (Hfrees _ _ Hin) as (Hneq & Hpub).
      by_cases p Hp Hstep Hcand Hpast;
        rewrite ?impl_at_with_live, ?impl_at_with_impl; try (split; assumption).
      contradiction.
    + injection Hin as -> Hev.
      by_cases p Hp Hstep Hcand Hpast; try discriminate Hev.
      injection Hev as ->. rewrite impl_at_with_live. tauto.
  - (* inv_wins *)
    rewrite wins_snoc.
    by_cases p Hp Hstep Hcand Hpast; cbn [cas_won snd fst];
      rewrite ?impl_at_with_live, ?impl_at_with_impl, ?app_nil_r;
      try exact Hwins.
    right. destruct Hwins as [(_ & ->)|(Hpub & _)]; [|contradiction].
    split; [tauto|]. exists t. reflexivity.
Qed.


(** Before any thread has moved. *)
Lemma Inv_start (n : nat) (w : world) :
  impl_at w m = NULL -> Inv m [] w (replicate n AtLoad).
Proof.
  intros Hnull.
  constructor; try (intros; exfalso; cbn in *; tauto).
  - by left.
  - intros t p c H Hc. apply lookup_replicate in H as [-> _]. discriminate Hc.
  - intros t1 t2 p1 p2 c _ H _ Hc _.
    apply lookup_replicate in H as [-> _]. discriminate Hc.
  - intros t p H Hpc. apply lookup_replicate in H as [-> _]. discriminate Hpc.
  - intros t v H. apply lookup_replicate in H as [H _]. discriminate H.
  - intros t p H. apply lookup_replicate in H as [-> _]. reflexivity.
  - intros t p H. apply lookup_replicate in H as [-> _]. cbn. lia.
  - intros t p H _. apply lookup_replicate in H as [-> _]. reflexivity.
  - by left.
Qed.

(** A step of the threads is a step of one place. *)
Lemma step_places (c c' : config) (t : nat) (ev : event) (pcs : list pc) :
  pool c = at_pc m <$> pcs ->
  step c (t, ev) c' ->
  exists q q' rho,
    pcs !! t = Some q /\
    (q = AtNew -> block rho <> NULL /\ block rho ∉ live (shared c)) /\
    pc_step m rho (shared c) q = Some (ev, q', shared c') /\
    pool c' = at_pc m <$> <[t := q']> pcs.
Proof.
  intros Hpool Hstep. inversion Hstep as [c0 t0 rho p p' ev0 w' Hp Hok Hts]; subst.
  rewrite Hpool, list_lookup_fmap in Hp.
  destruct (pcs !! t) as [q|] eqn:Hq; [|discriminate Hp].
  injection Hp as <-. rewrite thread_step_at_pc in Hts.
  destruct (pc_step m rho (shared c) q) as [[[ev1 q'] w1]|] eqn:Hpc;
    [|discriminate Hts].
  injection Hts as -> <- ->.
  exists q, q', rho. split; [reflexivity|]. split.
  - intros ->. apply Hok. reflexivity.
  - split; [exact Hpc|]. cbn. rewrite Hpool. symmetry. apply list_fmap_insert.
Qed.

(** The invariant holds along every execution. *)
Lemma exec_Inv (c c' : config) (tr : list (nat * event)) :
  exec c tr c' ->
  forall (pre : list (nat * event)) (pcs : list pc),
    pool c = at_pc m <$> pcs ->
    Inv m pre (shared c) pcs ->
    exists pcs',
      pool c' = at_pc m <$> pcs' /\ length pcs' = length pcs /\
      Inv m (pre ++ tr) (shared c') pcs'.
Proof.
  induction 1 as [c|c c' c'' tr [t ev] Hexec IH Hstep]; intros pre pcs Hpool HI.
  - exists pcs. rewrite app_nil_r. auto.
  - destruct (IH pre pcs Hpool HI) as (pcs' & Hpool' & Hlen & HI').
    destruct (step_places _ _ _ _ _ Hpool' Hstep)
      as (q & q' & rho & Hq & Halloc & Hpc & Hpool'').
    exists (<[t := q']> pcs'). split; [exact Hpool''|].
    split; [rewrite length_insert; exact Hlen|].
    rewrite app_assoc. eapply Inv_step; eauto.
Qed.

(** Once the handle is published it stays, and a thread that holds it
    wherever it holds a value keeps doing so. *)
Lemma settled_step (tr : list (nat * event)) (w w' : world) (pcs : list pc)
    (t t1 : nat) (q q' q1 : pc) (rho : env) (ev : event) (h : ptr) :
  impl_at w m = h -> h <> NULL ->
  pcs !! t = Some q ->
  pc_step m rho w q = Some (ev, q', w') ->
  pcs !! t1 = Some q1 -> settled h q1 ->
  impl_at w' m = h /\
  exists q2, <[t := q']> pcs !! t1 = Some q2 /\ settled h q2.
Proof.
  intros Hh Hpub Hq Hpc Hq1 Hset.
  assert (Himpl : impl_at w' m = h).
  { destruct q; cbn in Hpc; try discriminate Hpc;
      try match type of Hpc with
          | context [Z.eqb ?a ?b] => destruct (Z.eqb_spec a b) as [Hn|Hn]
          end;
      injection Hpc as <- <- <-; rewrite ?impl_at_with_live; congruence. }
  split; [exact Himpl|].
  destruct (decide (t1 = t)) as [->|Hne].
  - exists q'. split; [eapply lookup_insert_same; eauto|].
    assert (q1 = q) by congruence. subst q1.
    destruct q; cbn in Hpc; try discriminate Hpc;
      try match type of Hpc with
          | context [Z.eqb ?a ?b] => destruct (Z.eqb_spec a b) as [Hn|Hn]
          end;
      injection Hpc as <- <- <-; cbn in *; congruence.
  - exists q1. split; [rewrite lookup_insert_other; assumption|assumption].
Qed.

Lemma exec_settled (c c' : config) (tr : list (nat * event)) :
  exec c tr c' ->
  forall (pcs : list pc) (t1 : nat) (q1 : pc) (h : ptr),
    pool c = at_pc m <$> pcs ->
    impl_at (shared c) m = h -> h <> NULL ->
    pcs !! t1 = Some q1 -> settled h q1 ->
    exists pcs' q2,
      pool c' = at_pc m <$> pcs' /\ impl_at (shared c') m = h /\
      pcs' !! t1 = Some q2 /\ settled h q2.
Proof.
  induction 1 as [c|c c' c'' tr [t ev] Hexec IH Hstep];
    intros pcs t1 q1 h Hpool Hh Hpub Hq1 Hset.
  - exists pcs, q1. auto.
  - destruct (IH pcs t1 q1 h Hpool Hh Hpub Hq1 Hset)
      as (pcs' & q2 & Hpool' & Hh' & Hq2 & Hset').
    destruct (step_places _ _ _ _ _ Hpool' Hstep)
      as (q & q' & rho & Hq & _ & Hpc & Hpool'').
    destruct (settled_step tr _ _ _ _ _ _ _ _ _ _ _ Hh' Hpub Hq Hpc Hq2 Hset')
      as (Hh'' & q3 & Hq3 & Hset'').
    exists (<[t := q']> pcs'), q3. auto.
Qed.

(** A thread has returned exactly at the place [AtReturn]. *)
Lemma at_pc_Ret (q : pc) (v : ptr) :
  at_pc m q = Ret v -> exists b, q = AtReturn b v.
Proof.
  destruct q; cbn; intros H; try discriminate H.
  injection H as ->. eauto.
Qed.

(** A thread that has not returned can make its next call, whatever the
    other threads did. *)
Lemma pc_progress (w : world) (q : pc) :
  (exists b v, q = AtReturn b v) \/
  exists rho ev q' w',
    (q = AtNew -> block rho <> NULL /\ block rho ∉ live w) /\
    pc_step m rho w q = Some (ev, q', w').
Proof.
  pose (b := fresh ({[NULL]} ∪ live w)).
  assert (Hb : b ∉ ({[NULL]} ∪ live w)) by apply is_fresh.
  pose (rho := {| status := fun _ => 0; key_created := (0, 0); block := b;
                  stack_min := 0 |}).
  assert (Hfresh : block rho <> NULL /\ block rho ∉ live w).
  { cbn. split; [intros Hz|intros Hin]; apply Hb.
    - rewrite Hz. apply elem_of_union_l, elem_of_singleton. reflexivity.
    - apply elem_of_union_r. exact Hin. }
  destruct q; try (left; eauto; fail); right; exists rho; cbn [pc_step].
  all: try (destruct (Z.eqb_spec (impl_at w m) NULL));
    do 3 eexists; (split; [intros _; exact Hfresh|reflexivity]).
Qed.

End Race.

(** *** Schedules are executions *)

Lemma exec_first (c c1 c' : config) (l : nat * event) (tr : list (nat * event)) :
  step c l c1 -> exec c1 tr c' -> exec c (l :: tr) c'.
Proof.
  intros Hstep Hexec. induction Hexec as [c1|c1 c2 c3 tr l' Hexec IH Hstep'].
  - apply (exec_more c c c1 [] l); [apply exec_done|exact Hstep].
  - apply (exec_more c c2 c3 (l :: tr) l'); [apply IH; exact Hstep|exact Hstep'].
Qed.

Lemma sched_step_step (c c' : config) (t : nat) (rho : env) (ev : event) :
  sched_step c t rho = Some (ev, c') -> step c (t, ev) c'.
Proof.
  unfold sched_step. intros H.
  destruct (pool c !! t) as [p|] eqn:Hp; [|discriminate H].
  destruct (implb _ _) eqn:Hok; [|discriminate H].
  destruct (thread_step rho t (shared c) p) as [[[ev' p'] w']|] eqn:Hts;
    [|discriminate H].
  injection H as <- <-. eapply step_thread; eauto.
  intros Hall. rewrite Hall in Hok. cbn in Hok.
  apply bool_decide_eq_true in Hok. exact Hok.
Qed.

Lemma run_schedule_exec (sched : list (nat * env)) :
  forall (c c' : config) (tr : list (nat * event)),
    run_schedule sched c = Some (tr, c') -> exec c tr c'.
Proof.
  induction sched as [|[t rho] rest IH]; intros c c' tr H; cbn in H.
  - injection H as <- <-. apply exec_done.
  - destruct (sched_step c t rho) as [[ev c1]|] eqn:Hs; [|discriminate H].
    destruct (run_schedule rest c1) as [[tr1 c2]|] eqn:Hr; [|discriminate H].
    injection H as <- <-.
    eapply exec_first; [eapply sched_step_step; eauto|eauto].
Qed.

(** C6, at the failing input: two threads enter [g_rec_mutex_get_impl] on
    the unallocated mutex at 700.  Thread 0 reads the field at line 260 and
    finds NULL; thread 1 runs the whole function and publishes block 4096;
    thread 0 then makes the test of line 262, which reads the field a second
    time, finds it set, skips the allocation and returns the NULL of line
    260.  Thread 0 has reached first use, built no candidate and made no
    compare-and-exchange, and what it obtains after the publication is not
    the published handle. *)
Theorem g_rec_mutex_get_impl_overtaken :
  exists tr c,
    run_schedule overtaken_between_reads (all_enter 2 700 world0) = Some (tr, c) /\
    exec (all_enter 2 700 world0) tr c /\
    List.filter (fun l => Nat.eqb l.1 0) tr =
      [(0%nat, EvLoad 700 NULL); (0%nat, EvLoad 700 4096)] /\
    wins tr = [(1%nat, 4096)] /\
    impl_at (shared c) 700 = 4096 /\
    pool c !! 1%nat = Some (Ret 4096) /\
    pool c !! 0%nat = Some (Ret NULL).
Proof.
  destruct (run_schedule overtaken_between_reads (all_enter 2 700 world0))
    as [[tr c]|] eqn:H; [|vm_compute in H; discriminate H].
  pose proof (run_schedule_exec _ _ _ _ H) as Hexec.
  exists tr, c. split; [reflexivity|]. split; [exact Hexec|].
  clear Hexec. vm_compute in H. injection H as <- <-. repeat split; reflexivity.
Qed.

(** ** The theorems at concrete inputs *)

Lemma linux_ok : platform_ok linux.
Proof. unfold platform_ok. cbn. lia. Qed.

Lemma g_system_thread_create_status_witness :
  platform_ok linux /\
  out (run (failing "pthread_create" 11) 0%nat
         (g_system_thread_create linux 7 0 0 true 900) world0) = Returned tt.
Proof.
  split; [exact linux_ok|].
  refine (proj1 (proj1 (g_system_thread_create_status linux
                          (failing "pthread_create" 11) 0%nat world0
                          7 0 0 true 900 linux_ok _) _ _)).
  - vm_compute. tauto.
  - reflexivity.
  - reflexivity.
Defined.

Lemma checked_ops_abort_on_unexpected_witness :
  reaches_native (Call_g_cond_signal 300) /\
  out (run (failing "pthread_cond_signal" EINVAL) 0%nat
         (op_prog linux (Call_g_cond_signal 300)) world0) = Aborted.
Proof.
  split; [exact I|].
  refine (proj1 (proj1 (proj2 (checked_ops_abort_on_unexpected linux
                                 (failing "pthread_cond_signal" EINVAL) 0%nat
                                 world0 (Call_g_cond_signal 300) I)) _)).
  reflexivity.
Defined.

Lemma g_cond_timed_wait_status_witness :
  platform_ok linux /\
  out (run (failing "pthread_cond_timedwait" 110) 0%nat
         (g_cond_timed_wait linux 300 500 (Some {| tv_sec := 5; tv_usec := 250 |}))
         world0) = Returned false.
Proof.
  split; [exact linux_ok|].
  refine (proj1 (proj1 (proj2 (g_cond_timed_wait_status linux
                                 (failing "pthread_cond_timedwait" 110) 0%nat
                                 world0 300 500
                                 (Some {| tv_sec := 5; tv_usec := 250 |})
                                 linux_ok)) _)).
  reflexivity.
Defined.

Lemma g_mutex_trylock_status_witness :
  platform_ok linux /\
  out (run (failing "pthread_mutex_trylock" 16) 0%nat
         (g_mutex_trylock linux 500) world0) = Returned false.
Proof.
  split; [exact linux_ok|].
  refine (proj2 (proj1 (proj2 (g_mutex_trylock_status linux
                                 (failing "pthread_mutex_trylock" 16) 0%nat
                                 world0 500 linux_ok))) _).
  reflexivity.
Defined.

Lemma g_private_two_modes_witness :
  out (run all_succeed 1%nat
         (g_private_get {| single_value := 77; ready := false; key := 0 |})
         (final (run all_succeed 0%nat
                   (g_private_set linux
                      {| single_value := 0; ready := false; key := 0 |} 77)
                   world0))) = Returned 77.
Proof.
  refine (proj2 (proj2 (proj1 (g_private_two_modes linux
                                 {| single_value := 0; ready := false; key := 0 |}
                                 0) _)) all_succeed 0%nat world0 77 all_succeed 1%nat).
  reflexivity.
Defined.

Lemma g_system_thread_create_stack_size_witness :
  In (EvPthread (pthread_attr_setstacksize 16384) 0)
    (trace (run all_succeed 0%nat
              (g_system_thread_create linux 7 0 4096 true 900) world0)) /\
  16384 = Z.max 16384 4096.
Proof.
  assert (Hin : In (EvPthread (pthread_attr_setstacksize 16384) 0)
                  (trace (run all_succeed 0%nat
                            (g_system_thread_create linux 7 0 4096 true 900)
                            world0))).
  { vm_compute. tauto. }
  split; [exact Hin|].
  destruct (proj1 (g_system_thread_create_stack_size linux all_succeed 0%nat
                     world0 7 0 4096 true 900) 16384 0 Hin)
    as (_ & _ & _ & Hmin & _).
  apply (Hmin eq_refl). cbn. lia.
Defined.

(** ** Running one call after another *)


Lemma live_add_remove (b : Z) (l : gset Z) : b ∉ l -> ({[b]} ∪ l) ∖ {[b]} = l.
Proof.
  intros Hb. apply set_eq. intros x.
  rewrite elem_of_difference, elem_of_union, elem_of_singleton.
  split; [tauto|]. intros Hx. split; [tauto|]. congruence.
Qed.

Lemma live_removed (b : Z) (l : gset Z) : b ∉ l ∖ {[b]}.
Proof. rewrite elem_of_difference, elem_of_singleton. tauto. Qed.

(** ** More on the recursive mutex, one thread at a time *)

Lemma run_g_rec_mutex_impl_new (rho : env) (t : nat) (w : world) :
  run rho t g_rec_mutex_impl_new w =
  {| trace := [EvSliceNew (block rho);
               EvPthread pthread_mutexattr_init (status rho pthread_mutexattr_init);
               EvPthread (pthread_mutexattr_settype "PTHREAD_MUTEX_RECURSIVE")
                 (status rho (pthread_mutexattr_settype "PTHREAD_MUTEX_RECURSIVE"));
               EvPthread (pthread_mutex_init (block rho) true)
                 (status rho (pthread_mutex_init (block rho) true));
               EvPthread pthread_mutexattr_destroy
                 (status rho pthread_mutexattr_destroy)];
     out := Returned (block rho);
     final := with_live w ({[block rho]} ∪ live w) |}.
Proof. reflexivity. Qed.

Lemma run_g_rec_mutex_impl_free (rho : env) (t : nat) (w : world) (impl : ptr) :
  run rho t (g_rec_mutex_impl_free impl) w =
  {| trace := [EvPthread (pthread_mutex_destroy impl)
                 (status rho (pthread_mutex_destroy impl));
               EvSliceFree impl];
     out := Returned tt;
     final := with_live w (live w ∖ {[impl]}) |}.
Proof. reflexivity. Qed.

Lemma run_g_rec_mutex_get_impl_set (rho : env) (t : nat) (w : world) (mutex : ptr) :
  impl_at w mutex <> NULL ->
  run rho t (g_rec_mutex_get_impl mutex) w =
  {| trace := [EvLoad mutex (impl_at w mutex); EvLoad mutex (impl_at w mutex)];
     out := Returned (impl_at w mutex); final := w |}.
Proof.
  intros Hn. unfold g_rec_mutex_get_impl. step_run.
  destruct (Z.eqb_spec (impl_at w mutex) NULL); [contradiction|]. reflexivity.
Qed.


Section RecMutexAlone.
Variables (rho : env) (t : nat) (w : world) (mutex : ptr).

(** Alone, [g_rec_mutex_get_impl] allocates at most once: on an allocated
    mutex it returns the handle and changes nothing; on an unallocated one it
    allocates one block, publishes it, frees nothing and returns it; and a
    second call, by any thread, returns the same handle and changes
    nothing. *)
Theorem g_rec_mutex_get_impl_alone :
  block rho <> NULL ->
  let r := run rho t (g_rec_mutex_get_impl mutex) w in
  (impl_at w mutex <> NULL ->
   out r = Returned (impl_at w mutex) /\ final r = w /\
   trace r = [EvLoad mutex (impl_at w mutex); EvLoad mutex (impl_at w mutex)]) /\
  (impl_at w mutex = NULL ->
   out r = Returned (block rho) /\
   impl_at (final r) mutex = block rho /\
   live (final r) = {[block rho]} ∪ live w /\
   count_events is_alloc (trace r) = 1%nat /\
   count_events is_free (trace r) = 0%nat) /\
  (forall rho' t',
     let r' := run rho' t' (g_rec_mutex_get_impl mutex) (final r) in
     out r' = out r /\ final r' = final r /\
     count_events is_alloc (trace r') = 0%nat).
Proof.
  intros Hblock r.
  assert (Hfast : forall w1 rho1 t1, impl_at w1 mutex <> NULL ->
            run rho1 t1 (g_rec_mutex_get_impl mutex) w1 =
            {| trace := [EvLoad mutex (impl_at w1 mutex); EvLoad mutex (impl_at w1 mutex)];
               out := Returned (impl_at w1 mutex); final := w1 |}).
  { intros w1 rho1 t1 Hn. unfold g_rec_mutex_get_impl. step_run.
    destruct (Z.eqb_spec (impl_at w1 mutex) NULL); [contradiction|]. reflexivity. }
  destruct (Z.eqb_spec (impl_at w mutex) NULL) as [Hnull|Hset].
  - assert (Hr : out r = Returned (block rho) /\
                 impl_at (final r) mutex = block rho /\
                 live (final r) = {[block rho]} ∪ live w /\
                 count_events is_alloc (trace r) = 1%nat /\
                 count_events is_free (trace r) = 0%nat).
    { subst r. unfold g_rec_mutex_get_impl, g_rec_mutex_impl_new, g_rec_mutex_impl_free.
      cbn. rewrite Hnull. cbn.
      change (impl_at {| impls := impls w; live := {[block rho]} ∪ live w;
                         specific := specific w |} mutex)
        with (impl_at w mutex).
      rewrite Hnull. cbn. unfold impl_at. cbn.
      rewrite !lookup_insert_eq. cbn. auto. }
    split; [intros; contradiction|]. split; [intros _; exact Hr|].
    intros rho' t' r'. subst r'. destruct Hr as (Hout & Himpl & _).
    rewrite Hfast by congruence. cbn [out final trace]. rewrite Himpl, Hout. auto.
  - split.
    { intros _. subst r. rewrite Hfast by assumption. auto. }
    split; [intros; contradiction|].
    intros rho' t' r'. subst r' r. rewrite (Hfast w rho t) by assumption.
    cbn [out final trace]. rewrite Hfast by assumption. auto.
Qed.

(** [g_rec_mutex_init] then [g_rec_mutex_clear]: the block allocated by the
    first is the one freed by the second, and the set of allocated blocks is
    what it was before. *)
Theorem g_rec_mutex_init_then_clear (rho' : env) (t' : nat) :
  block rho <> NULL -> block rho ∉ live w ->
  let r1 := run rho t (g_rec_mutex_init mutex) w in
  let r2 := run rho' t' (g_rec_mutex_clear mutex) (final r1) in
  out r1 = Returned tt /\ impl_at (final r1) mutex = block rho /\
  count_events is_alloc (trace r1) = 1%nat /\
  out r2 = Returned tt /\
  (forall p, In (EvSliceFree p) (trace r2) <-> p = block rho) /\
  live (final r2) = live w.
Proof.
  intros Hblock Hfresh r1 r2.
  assert (H1 : r1 = {| trace := trace (run rho t g_rec_mutex_impl_new w) ++
                                [EvStore mutex (block rho)];
                       out := Returned tt;
                       final := with_impl (with_live w ({[block rho]} ∪ live w))
                                  mutex (block rho) |}) by reflexivity.
  assert (Himpl : impl_at (final r1) mutex = block rho).
  { rewrite H1. apply impl_at_with_impl. }
  assert (H2 : r2 = {| trace := [EvLoad mutex (block rho); EvLoad mutex (block rho)] ++
                                trace (run rho' t' (g_rec_mutex_impl_free (block rho))
                                         (final r1));
                       out := Returned tt;
                       final := with_live (final r1) (live (final r1) ∖ {[block rho]}) |}).
  { subst r2. unfold g_rec_mutex_clear. step_run. rewrite Himpl.
    destruct (Z.eqb_spec (block rho) NULL); [contradiction|].
    step_run. rewrite Himpl. reflexivity. }
  split; [rewrite H1; reflexivity|]. split; [exact Himpl|].
  split; [rewrite H1; reflexivity|]. split; [rewrite H2; reflexivity|].
  split.
  - intros p. rewrite H2. cbn. split.
    + intros [H|[H|[H|[H|[]]]]]; try discriminate H. congruence.
    + intros ->. tauto.
  - rewrite H2, H1. cbn. apply live_add_remove. exact Hfresh.
Qed.

(** [g_rec_mutex_clear] does not reset the field: after it the mutex still
    points at the block it has just freed.  A second clear frees that block
    again, and the accessor hands it out without allocating. *)
Theorem g_rec_mutex_clear_keeps_field (rho1 rho2 : env) (t1 t2 : nat) :
  impl_at w mutex <> NULL ->
  let impl := impl_at w mutex in
  let r := run rho t (g_rec_mutex_clear mutex) w in
  impl_at (final r) mutex = impl /\ (impl ∉ live (final r)) /\
  In (EvSliceFree impl) (trace (run rho1 t1 (g_rec_mutex_clear mutex) (final r))) /\
  out (run rho2 t2 (g_rec_mutex_get_impl mutex) (final r)) = Returned impl /\
  count_events is_alloc
    (trace (run rho2 t2 (g_rec_mutex_get_impl mutex) (final r))) = 0%nat.
Proof.
  intros Hset impl r.
  assert (Hclear : forall rho0 t0 w0, impl_at w0 mutex <> NULL ->
            run rho0 t0 (g_rec_mutex_clear mutex) w0 =
            {| trace := [EvLoad mutex (impl_at w0 mutex); EvLoad mutex (impl_at w0 mutex);
                         EvPthread (pthread_mutex_destroy (impl_at w0 mutex))
                           (status rho0 (pthread_mutex_destroy (impl_at w0 mutex)));
                         EvSliceFree (impl_at w0 mutex)];
               out := Returned tt;
               final := with_live w0 (live w0 ∖ {[impl_at w0 mutex]}) |}).
  { intros rho0 t0 w0 Hn. unfold g_rec_mutex_clear. step_run.
    destruct (Z.eqb_spec (impl_at w0 mutex) NULL); [contradiction|].
    step_run. reflexivity. }
  assert (Hr : final r = with_live w (live w ∖ {[impl]})).
  { subst r. rewrite Hclear by assumption. reflexivity. }
  assert (Himpl : impl_at (final r) mutex = impl) by (rewrite Hr; reflexivity).
  split; [exact Himpl|]. split.
  { rewrite Hr. cbn. apply live_removed. }
  split.
  { rewrite Hclear by (rewrite Himpl; assumption). rewrite Himpl. cbn. tauto. }
  rewrite run_g_rec_mutex_get_impl_set by (rewrite Himpl; assumption).
  rewrite Himpl. auto.
Qed.


End RecMutexAlone.


(** ** The reader-writer lock *)

(** Each of the eight GRWLock functions makes one native call on the lock and
    returns, whatever that call reports: nothing is printed, the process is
    never ended, the world is untouched.  The two trylocks return TRUE exactly
    on status 0, so that contention and failure both read FALSE. *)
Theorem g_rw_lock_one_call_no_abort (rho : env) (t : nat) (w : world)
    (op : rw_op) (lock : ptr) :
  let s := status rho (rw_native op lock) in
  run rho t (rw_prog op lock) w =
  {| trace := [EvPthread (rw_native op lock) s];
     out := Returned (if rw_returns_bool op then Some (s =? 0) else None);
     final := w |}.
Proof.
  destruct op; cbn; try reflexivity.
  all: destruct (Z.eqb _ 0); reflexivity.
Qed.

(** Where [g_mutex_trylock] ends the process, the trylocks of the
    reader-writer lock return FALSE: on a status that is neither 0 nor
    [EBUSY]. *)
Theorem trylock_failure_policies_differ (P : platform) (rho : env) (t : nat)
    (w : world) (mutex lock : ptr) (s : Z) :
  s <> 0 -> s <> EBUSY P ->
  status rho (pthread_mutex_trylock mutex) = s ->
  status rho (pthread_rwlock_trywrlock lock) = s ->
  status rho (pthread_rwlock_tryrdlock lock) = s ->
  out (run rho t (g_mutex_trylock P mutex) w) = Aborted /\
  out (run rho t (g_rw_lock_writer_trylock lock) w) = Returned false /\
  out (run rho t (g_rw_lock_reader_trylock lock) w) = Returned false.
Proof.
  intros H0 Hbusy Hm Hw Hr.
  unfold g_mutex_trylock, g_rw_lock_writer_trylock, g_rw_lock_reader_trylock,
    g_thread_abort.
  step_run. rewrite Hm, Hw, Hr.
  destruct (Z.eqb_spec s 0); [contradiction|].
  destruct (Z.eqb_spec s (EBUSY P)); [contradiction|].
  step_run. auto.
Qed.

(** ** Deadlines of the condition variable *)

Lemma to_glong_small (P : platform) (z : Z) :
  1 <= long_bits P ->
  - 2 ^ (long_bits P - 1) <= z < 2 ^ (long_bits P - 1) ->
  to_glong P z = z.
Proof.
  intros Hb Hz. unfold to_glong.
  replace (2 ^ long_bits P) with (2 * 2 ^ (long_bits P - 1)).
  - rewrite Z.mod_small by lia. lia.
  - rewrite <- Z.pow_succ_r by lia. f_equal. lia.
Qed.

Lemma pow_long_bits (P : platform) :
  platform_ok P -> 2 ^ 31 <= 2 ^ (long_bits P - 1).
Proof.
  intros (_ & _ & _ & Hb). apply Z.pow_le_mono_r; lia.
Qed.

Section Deadlines.
Variable P : platform.
Variables (rho : env) (t : nat) (w : world) (cond mutex : ptr).

(** [g_cond_timedwait] hands [pthread_cond_timedwait] a normalised timespec
    that denotes exactly [abs_time] microseconds, for every [abs_time] from 0
    on whose seconds fit a [long] ([time_t] being taken as wide as [long]);
    the result is TRUE on status 0, FALSE on [ETIMEDOUT], and the process ends
    on anything else. *)
Theorem g_cond_timedwait_deadline (abs_time : Z) :
  platform_ok P ->
  0 <= abs_time ->
  abs_time / USEC_PER_SEC < 2 ^ (long_bits P - 1) ->
  let r := run rho t (g_cond_timedwait P cond mutex abs_time) w in
  let sec := abs_time / USEC_PER_SEC in
  let nsec := (abs_time mod USEC_PER_SEC) * 1000 in
  let s := status rho (pthread_cond_timedwait cond mutex sec nsec) in
  deadline_of (trace r) = Some (sec, nsec) /\
  0 <= nsec < NSEC_PER_SEC /\
  timespec_ns sec nsec = abs_time * 1000 /\
  (out r = Returned true <-> s = 0) /\
  (out r = Returned false <-> s = ETIMEDOUT P) /\
  (out r = Aborted <-> s <> 0 /\ s <> ETIMEDOUT P).
Proof.
  intros Hok Hpos Hfit r sec nsec s.
  pose proof (pow_long_bits P Hok) as Hpow.
  destruct Hok as (_ & _ & Htimed & Hbits).
  assert (Hmod : 0 <= abs_time mod USEC_PER_SEC < USEC_PER_SEC)
    by (apply Z.mod_pos_bound; reflexivity).
  assert (Hsec : to_glong P (Z.quot abs_time 1000000) = sec).
  { rewrite Z.quot_div_nonneg by lia. apply to_glong_small; [lia|].
    subst sec. unfold USEC_PER_SEC in *.
    pose proof (Z.div_pos abs_time 1000000 Hpos ltac:(lia)). lia. }
  assert (Hnsec : to_glong P (Z.rem abs_time 1000000 * 1000) = nsec).
  { rewrite Z.rem_mod_nonneg by lia. apply to_glong_small; [lia|].
    subst nsec. unfold USEC_PER_SEC in *. lia. }
  assert (Hr : r = run rho t
                 (status ← call (Pthread (pthread_cond_timedwait cond mutex sec nsec));
                  if status =? 0 then mret true
                  else (if negb (status =? ETIMEDOUT P)
                        then g_thread_abort P status "pthread_cond_timedwait"
                        else mret tt);; mret false) w).
  { subst r. unfold g_cond_timedwait. cbv zeta. rewrite Hsec, Hnsec. reflexivity. }
  rewrite Hr. unfold g_thread_abort. step_run. fold s.
  split; [reflexivity|]. split; [subst nsec; unfold NSEC_PER_SEC, USEC_PER_SEC in *; lia|].
  split.
  { subst sec nsec. unfold timespec_ns, NSEC_PER_SEC.
    pose proof (Z.div_mod abs_time USEC_PER_SEC ltac:(discriminate)) as Hdm.
    unfold USEC_PER_SEC in *. lia. }
  destruct (Z.eqb_spec s 0); [|destruct (Z.eqb_spec s (ETIMEDOUT P))]; step_run.
  all: repeat split; intros; try discriminate; try congruence; try lia; try tauto.
  all: destruct H; congruence.
Qed.

(** A deadline before the epoch that is not a whole number of seconds
    reaches [pthread_cond_timedwait] with a negative [tv_nsec]: C division
    truncates towards zero and the remainder keeps the sign. *)
Theorem g_cond_timedwait_negative_deadline (abs_time : Z) :
  platform_ok P ->
  abs_time < 0 ->
  Z.rem abs_time USEC_PER_SEC <> 0 ->
  - 2 ^ (long_bits P - 1) <= Z.quot abs_time USEC_PER_SEC ->
  exists sec nsec,
    deadline_of (trace (run rho t (g_cond_timedwait P cond mutex abs_time) w))
    = Some (sec, nsec) /\
    - NSEC_PER_SEC < nsec < 0 /\ sec <= 0 /\
    timespec_ns sec nsec = abs_time * 1000.
Proof.
  intros Hok Hneg Hrem Hfit.
  pose proof (pow_long_bits P Hok) as Hpow.
  destruct Hok as (_ & _ & _ & Hbits).
  unfold USEC_PER_SEC in *.
  pose proof (Z.rem_bound_pos_neg abs_time 1000000 ltac:(lia) ltac:(lia)) as Hb.
  pose proof (Z.quot_rem abs_time 1000000 ltac:(lia)) as Hqr.
  pose proof (Z.mul_quot_ge abs_time 1000000 ltac:(lia) ltac:(lia)) as Hq.
  exists (Z.quot abs_time 1000000), (Z.rem abs_time 1000000 * 1000).
  split.
  - unfold g_cond_timedwait. cbv zeta.
    rewrite (to_glong_small P (Z.quot abs_time 1000000)) by lia.
    rewrite (to_glong_small P (Z.rem abs_time 1000000 * 1000)) by lia.
    reflexivity.
  - unfold timespec_ns, NSEC_PER_SEC. lia.
Qed.

(** [g_cond_timed_wait] with a [GTimeVal] and [g_cond_timedwait] with the
    same instant in microseconds are the same call: same deadline, same
    events, same result.  The instant is one a [gint64] holds. *)
Theorem g_cond_timed_wait_as_timedwait (tv : GTimeVal) :
  platform_ok P ->
  0 <= tv_sec tv < 2 ^ (long_bits P - 1) ->
  0 <= tv_usec tv < USEC_PER_SEC ->
  tv_sec tv * USEC_PER_SEC + tv_usec tv <= G_MAXINT64 ->
  run rho t (g_cond_timed_wait P cond mutex (Some tv)) w =
  run rho t (g_cond_timedwait P cond mutex (tv_sec tv * USEC_PER_SEC + tv_usec tv)) w.
Proof.
  intros Hok Hsec Husec _.
  pose proof (pow_long_bits P Hok) as Hpow.
  destruct Hok as (_ & _ & _ & Hbits).
  unfold USEC_PER_SEC in *.
  unfold g_cond_timed_wait, g_cond_timedwait. cbv zeta.
  rewrite Z.quot_div_nonneg, Z.rem_mod_nonneg by lia.
  rewrite Z.add_comm, Z.div_add, Z.mod_add by lia.
  rewrite Z.div_small, Z.mod_small by lia. rewrite Z.add_0_l.
  rewrite (to_glong_small P (tv_sec tv)) by lia.
  reflexivity.
Qed.

(** [g_cond_timed_wait] multiplies [tv_usec] by 1000 and does not carry into
    the seconds: the [tv_nsec] it hands over is below one second exactly when
    [tv_usec] is below one million. *)
Theorem g_cond_timed_wait_not_normalised (tv : GTimeVal) :
  platform_ok P ->
  0 <= tv_usec tv < 2000000 ->
  exists nsec,
    deadline_of (trace (run rho t (g_cond_timed_wait P cond mutex (Some tv)) w))
    = Some (tv_sec tv, nsec) /\
    nsec = tv_usec tv * 1000 /\
    (nsec < NSEC_PER_SEC <-> tv_usec tv < USEC_PER_SEC).
Proof.
  intros Hok Husec.
  pose proof (pow_long_bits P Hok) as Hpow.
  destruct Hok as (_ & _ & _ & Hbits).
  exists (tv_usec tv * 1000). split; [|split; [reflexivity|]].
  - unfold g_cond_timed_wait. cbv zeta.
    rewrite (to_glong_small P (tv_usec tv * 1000)) by lia. reflexivity.
  - unfold NSEC_PER_SEC, USEC_PER_SEC. lia.
Qed.

End Deadlines.

(** ** Creating and joining threads *)

Section Threads.
Variable P : platform.
Variables (t : nat) (w : world).
Variables (func arg : ptr) (stack_size : Z) (joinable : bool) (thread : ptr).

(** With a start function, [g_system_thread_create] returns exactly when the
    three attribute calls it checks report 0 and [pthread_create] reports 0 or
    [EAGAIN].  When it returns it has called, in this order and once each,
    [pthread_attr_init], [pthread_attr_setdetachstate] with the caller's
    [joinable], [pthread_create] with the caller's function and argument, and
    [pthread_attr_destroy]; and [g_set_error] has been called exactly when
    [pthread_create] reported [EAGAIN]. *)
Theorem g_system_thread_create_returns_iff (rho : env) :
  platform_ok P -> func <> NULL ->
  let r := run rho t (g_system_thread_create P func arg stack_size joinable thread) w in
  let ret := status rho (pthread_create thread func arg) in
  (out r = Returned tt <->
   status rho pthread_attr_init = 0 /\
   status rho (pthread_attr_setdetachstate joinable) = 0 /\
   status rho pthread_attr_destroy = 0 /\
   (ret = 0 \/ ret = EAGAIN P)) /\
  (out r = Returned tt ->
   calls_but_stacksize (trace r) =
   [pthread_attr_init; pthread_attr_setdetachstate joinable;
    pthread_create thread func arg; pthread_attr_destroy]) /\
  ((exists d c msg, In (EvSetError d c msg) (trace r)) <->
   out r = Returned tt /\ ret = EAGAIN P) /\
  final r = w.
Proof.
  intros (Hagain & _) Hfunc r ret. subst r.
  unfold g_system_thread_create, g_return_if_fail_warning, posix_check_cmd,
    posix_check_err, g_error, MAX_expanded.
  destruct (Z.eqb_spec func NULL) as [|_]; [contradiction|].
  step_run.
  case_status; case_flags; case_max; case_status; fold ret; case_status.
  all: cbn; repeat split; intros; try discriminate; try congruence; try lia;
    try tauto.
  all: try match goal with
           | H : exists d c msg, _ |- _ =>
               destruct H as (d & c & msg & H); split_in H
           end.
  all: try (destruct H as (_ & ?); congruence).
  all: try (destruct H as (? & ? & ? & [?|?]); congruence).
  all: try match goal with
           | H : Aborted = Returned _ /\ _ |- _ => destruct H as (H & _); discriminate H
           end.
  all: try (do 3 eexists; tauto).
Qed.

(** The status of [pthread_attr_setstacksize] is never looked at: two native
    layers that differ in nothing else give the same result and the same
    sequence of calls. *)
Theorem g_system_thread_create_ignores_setstacksize_status (rho rho' : env) :
  (forall c, is_setstacksize_call c = false -> status rho c = status rho' c) ->
  stack_min rho = stack_min rho' ->
  let r := run rho t (g_system_thread_create P func arg stack_size joinable thread) w in
  let r' := run rho' t (g_system_thread_create P func arg stack_size joinable thread) w in
  out r = out r' /\ final r = final r' /\
  calls_of (trace r) = calls_of (trace r').
Proof.
  intros Hsame Hmin r r'. subst r r'.
  unfold g_system_thread_create, g_return_if_fail_warning, posix_check_cmd,
    posix_check_err, g_error, MAX_expanded.
  destruct (Z.eqb_spec func NULL) as [|_]; [cbn; auto|].
  pose proof (Hsame pthread_attr_init eq_refl) as E1.
  pose proof (Hsame (pthread_attr_setdetachstate joinable) eq_refl) as E2.
  pose proof (Hsame (pthread_create thread func arg) eq_refl) as E3.
  pose proof (Hsame pthread_attr_destroy eq_refl) as E4.
  step_run.
  repeat (rewrite <- ?E1, <- ?E2, <- ?E3, <- ?E4, <- ?Hmin;
          first [ progress case_flags
                | match goal with
                  | |- context [?a =? ?b] => destruct (Z.eqb_spec a b); step_run
                  | |- context [?a >? ?b] => destruct (Z.gtb_spec a b); step_run
                  end ]).
  all: rewrite <- ?E1, <- ?E2, <- ?E3, <- ?E4, <- ?Hmin; cbn; auto.
Qed.

(** [g_system_thread_join] returns exactly when [pthread_join] reports 0;
    on any other status the process ends after one error message, which
    names [g_system_thread_join], the call that failed and the error text of
    its status.  When [g_system_thread_create] ends the process, the last
    thing before the abort is one such message: it names
    [g_system_thread_create] and carries the status of a native call that
    was made and did not report 0. *)
Theorem thread_calls_fail_through_g_error (rho : env) :
  let s := status rho (pthread_join thread) in
  let rj := run rho t (g_system_thread_join P thread) w in
  let rc := run rho t (g_system_thread_create P func arg stack_size joinable thread) w in
  (out rj = Returned tt <-> s = 0) /\
  (s = 0 -> trace rj = [EvPthread (pthread_join thread) 0]) /\
  (s <> 0 ->
   out rj = Aborted /\
   trace rj = [EvPthread (pthread_join thread) s;
               EvLog G_LOG_LEVEL_ERROR
                 (posix_error_message P "g_system_thread_join" "899" s
                    "pthread_join (*(pthread_t*)thread, &ignore)");
               EvAbort]) /\
  final rj = w /\
  (out rc = Aborted ->
   exists before line c name,
     trace rc = before ++ [EvLog G_LOG_LEVEL_ERROR
                             (posix_error_message P "g_system_thread_create" line
                                (status rho c) name);
                           EvAbort] /\
     In (EvPthread c (status rho c)) before /\ status rho c <> 0 /\
     forall level msg, ~ In (EvLog level msg) before).
Proof.
  intros s rj rc. subst rj rc.
  unfold g_system_thread_join, g_system_thread_create, g_return_if_fail_warning,
    posix_check_cmd, posix_check_err, g_error, MAX_expanded.
  split; [|split; [|split; [|split]]].
  1-4: step_run; fold s; destruct (Z.eqb_spec s 0) as [Hs|Hs]; step_run;
    try rewrite Hs; repeat split; intros; try congruence.
  step_run.
  case_status; case_flags; case_max; case_status.
  all: intros Hab; try discriminate Hab.
  all: first
         [ eexists [_], _, _, _; split; [reflexivity|]
         | eexists [_; _], _, _, _; split; [reflexivity|]
         | eexists [_; _; _], _, _, _; split; [reflexivity|]
         | eexists [_; _; _; _], _, _, _; split; [reflexivity|]
         | eexists [_; _; _; _; _], _, _, _; split; [reflexivity|]
         | eexists [_; _; _; _; _; _], _, _, _; split; [reflexivity|]
         | eexists [_; _; _; _; _; _; _], _, _, _; split; [reflexivity|] ].
  all: split; [cbn; tauto|]; split; [assumption|not_in_trace].
Qed.

End Threads.

(** ** The slot whose key could not be created *)

(** [g_private_init] does not look at the status of [pthread_key_create]:
    when it fails the slot is marked ready all the same and keeps the key
    number it had.  From then on the slot reads and writes the thread-specific
    value of that number: what a thread stores through another slot holding
    the same number comes back through this one, and the fallback value is
    out of reach. *)
Theorem g_private_init_failure_aliases (P : platform) (slot other : GPrivate)
    (notify : ptr) (rho rho1 rho2 : env) (t t1 : nat) (w : world) (v : ptr) :
  (key_created rho).1 <> 0 ->
  let r := run rho t (g_private_init slot notify) w in
  let slot' := {| single_value := single_value slot; ready := true;
                  key := key slot |} in
  out r = Returned slot' /\ final r = w /\
  (ready other = true -> key other = key slot ->
   status rho1 (pthread_setspecific (key other) v) = 0 ->
   out (run rho2 t1 (g_private_get slot')
          (final (run rho1 t1 (g_private_set P other v) (final r)))) =
   Returned v).
Proof.
  intros Hfail r slot'. subst r slot'. unfold g_private_init. step_run.
  destruct (Z.eqb_spec (key_created rho).1 0) as [|_]; [contradiction|].
  split; [reflexivity|]. split; [reflexivity|].
  intros Hready Hkey Hok. unfold g_private_set, g_private_get.
  rewrite Hready. step_run. rewrite Hok. step_run. cbn [ready key].
  change (0 =? 0) with true. step_run.
  rewrite Hkey, specific_at_insert, Nat.eqb_refl. reflexivity.
Qed.

(** ** More on the lazy allocation, threads interleaved *)

Section RaceMore.
Variable m : ptr.

(** One more step of an execution, read off the places. *)
Lemma exec_place_step (c0 : config) (tr : list (nat * event)) (w w' : world)
    (pcs : list pc) (t : nat) (q q' : pc) (rho : env) (ev : event) :
  exec c0 tr {| shared := w; pool := at_pc m <$> pcs |} ->
  pcs !! t = Some q ->
  (q = AtNew -> block rho <> NULL /\ block rho ∉ live w) ->
  pc_step m rho w q = Some (ev, q', w') ->
  exec c0 (tr ++ [(t, ev)]) {| shared := w'; pool := at_pc m <$> <[t := q']> pcs |}.
Proof.
  intros Hexec Hq Halloc Hpc.
  eapply exec_more; [exact Hexec|].
  rewrite list_fmap_insert.
  pose proof (step_thread {| shared := w; pool := at_pc m <$> pcs |} t rho
                (at_pc m q) (at_pc m q') ev w') as Hs.
  cbn [shared pool] in Hs. apply Hs.
  - rewrite list_lookup_fmap, Hq. reflexivity.
  - intros Hall. apply Halloc. destruct q; cbn in Hall; try discriminate Hall.
    reflexivity.
  - rewrite thread_step_at_pc, Hpc. reflexivity.
Qed.

(** The two reads of [mutex->impl] at lines 260 and 262 are two steps.  On
    any unallocated mutex two threads can interleave so that the second
    publishes a handle between the two reads of the first: the first then
    fails the test of line 262 and returns the NULL it read at line 260,
    although the handle is published. *)
Theorem g_rec_mutex_get_impl_can_return_null (w0 : world) (b : ptr) :
  impl_at w0 m = NULL -> b <> NULL -> b ∉ live w0 ->
  exists tr c,
    exec (all_enter 2 m w0) tr c /\
    impl_at (shared c) m = b /\
    pool c !! 1%nat = Some (Ret b) /\
    pool c !! 0%nat = Some (Ret NULL).
Proof.
  intros Hnull Hb Hfresh.
  pose (rho := handing_out b).
  pose (w1 := with_live w0 ({[b]} ∪ live w0)).
  pose (w2 := with_impl w1 m b).
  assert (H2 : impl_at w2 m = b) by apply impl_at_with_impl.
  assert (E0 : exec (all_enter 2 m w0) []
                 {| shared := w0; pool := at_pc m <$> [AtLoad; AtLoad] |})
    by apply exec_done.
  pose proof (exec_place_step _ _ w0 w0 _ 0%nat AtLoad (AtTest NULL) rho
                (EvLoad m NULL) E0 eq_refl ltac:(discriminate)
                ltac:(cbn; rewrite Hnull; reflexivity)) as E1.
  pose proof (exec_place_step _ _ w0 w0 _ 1%nat AtLoad (AtTest NULL) rho
                (EvLoad m NULL) E1 eq_refl ltac:(discriminate)
                ltac:(cbn; rewrite Hnull; reflexivity)) as E2.
  pose proof (exec_place_step _ _ w0 w0 _ 1%nat (AtTest NULL) AtNew rho
                (EvLoad m NULL) E2 eq_refl ltac:(discriminate)
                ltac:(cbn; rewrite Hnull; reflexivity)) as E3.
  pose proof (exec_place_step _ _ w0 w1 _ 1%nat AtNew (AtAttrInit b) rho
                (EvSliceNew b) E3 eq_refl ltac:(intros _; split; assumption)
                eq_refl) as E4.
  pose proof (exec_place_step _ _ w1 w1 _ 1%nat (AtAttrInit b) (AtSetType b) rho
                _ E4 eq_refl ltac:(discriminate) eq_refl) as E5.
  pose proof (exec_place_step _ _ w1 w1 _ 1%nat (AtSetType b) (AtMutexInit b) rho
                _ E5 eq_refl ltac:(discriminate) eq_refl) as E6.
  pose proof (exec_place_step _ _ w1 w1 _ 1%nat (AtMutexInit b) (AtAttrDestroy b) rho
                _ E6 eq_refl ltac:(discriminate) eq_refl) as E7.
  pose proof (exec_place_step _ _ w1 w1 _ 1%nat (AtAttrDestroy b) (AtCas b) rho
                _ E7 eq_refl ltac:(discriminate) eq_refl) as E8.
  pose proof (exec_place_step _ _ w1 w2 _ 1%nat (AtCas b) AtReload rho
                (EvCas m NULL b true) E8 eq_refl ltac:(discriminate)
                ltac:(cbn; change (impl_at w1 m) with (impl_at w0 m);
                      rewrite Hnull; reflexivity)) as E9.
  pose proof (exec_place_step _ _ w2 w2 _ 1%nat AtReload (AtReturn true b) rho
                (EvLoad m b) E9 eq_refl ltac:(discriminate)
                ltac:(cbn; rewrite H2; reflexivity)) as E10.
  pose proof (exec_place_step _ _ w2 w2 _ 0%nat (AtTest NULL) (AtReturn false NULL) rho
                (EvLoad m b) E10 eq_refl ltac:(discriminate)
                ltac:(cbn; rewrite H2;
                      destruct (Z.eqb_spec b NULL); [contradiction|reflexivity]))
    as E11.
  eexists _, _. split; [exact E11|]. cbn. auto.
Qed.

(** A thread frees only a block that is allocated at that moment, that it
    allocated itself, and that is not the published handle; the block is no
    longer allocated afterwards.  So no block is freed twice, and the handle
    in the field is never a freed one. *)
Theorem g_rec_mutex_get_impl_frees_own_block (n : nat) (w0 : world)
    (tr : list (nat * event)) (c c' : config) (t : nat) (a : ptr) :
  impl_at w0 m = NULL ->
  exec (all_enter n m w0) tr c ->
  step c (t, EvSliceFree a) c' ->
  a ∈ live (shared c) /\ (a ∉ live (shared c')) /\
  a <> impl_at (shared c) m /\
  impl_at (shared c') m = impl_at (shared c) m /\
  In (t, EvSliceNew a) tr.
Proof.
  intros Hnull Hexec Hstep.
  destruct (exec_Inv m _ _ _ Hexec [] (replicate n AtLoad)) as (pcs & Hpool & _ & HI).
  { unfold all_enter. cbn [pool]. rewrite fmap_replicate. reflexivity. }
  { apply Inv_start. exact Hnull. }
  cbn [app] in HI.
  destruct (step_places m _ _ _ _ _ Hpool Hstep) as (q & q' & rho & Hq & _ & Hpc & _).
  destruct q; cbn in Hpc; try discriminate Hpc;
    try (destruct (impl_at (shared c) m =? NULL); discriminate Hpc).
  injection Hpc as <- _ Hw. rewrite <- Hw.
  destruct (inv_cand _ _ _ _ HI _ _ _ Hq eq_refl) as (_ & Hlive & Hneq & Hnew).
  repeat split; try assumption. cbn. apply live_removed.
Qed.

Lemma held_split (pcs : list pc) (t : nat) (p : pc) (x : ptr) :
  pcs !! t = Some p ->
  held pcs x <-> candidate p = Some x \/ held_by_other pcs t x.
Proof.
  intros Hp. unfold held, held_by_other. split.
  - intros (t0 & p0 & H0 & Hc). destruct (decide (t0 = t)) as [->|Hne].
    + left. congruence.
    + right. exists t0, p0. auto.
  - intros [Hc|(t0 & p0 & _ & H0 & Hc)]; [exists t, p|exists t0, p0]; auto.
Qed.

Lemma held_insert (pcs : list pc) (t : nat) (p p' : pc) (x : ptr) :
  pcs !! t = Some p ->
  held (<[t := p']> pcs) x <-> candidate p' = Some x \/ held_by_other pcs t x.
Proof.
  intros Hp. unfold held, held_by_other. split.
  - intros (t0 & p0 & H0 & Hc).
    apply (lookup_insert_cases _ _ _ _ _ _ Hp) in H0 as [[-> ->]|[Hne H0]].
    + left. exact Hc.
    + right. exists t0, p0. auto.
  - intros [Hc|(t0 & p0 & Hne & H0 & Hc)].
    + exists t, p'. split; [eapply lookup_insert_same; eauto|exact Hc].
    + exists t0, p0. split; [rewrite lookup_insert_other; assumption|exact Hc].
Qed.

(** Every step keeps the account of the blocks. *)
Lemma LiveInv_step (tr : list (nat * event)) (w0 w w' : world) (pcs : list pc)
    (t : nat) (p p' : pc) (rho : env) (ev : event) :
  Inv m tr w pcs -> LiveInv m w0 w pcs ->
  pcs !! t = Some p ->
  (p = AtNew -> block rho <> NULL /\ block rho ∉ live w) ->
  pc_step m rho w p = Some (ev, p', w') ->
  LiveInv m w0 w' (<[t := p']> pcs).
Proof.
  intros HI [Hlive Hcnew Hinew Hreturned] Hp Halloc Hstep. open_inv HI.
  assert (Hothers : forall x, held_by_other pcs t x -> candidate p <> Some x).
  { intros x (t0 & p0 & Hne & H0 & Hc) Hmine. exact (Hdist t0 t _ _ _ Hne H0 Hp Hc Hmine). }
  constructor.
  - (* li_live *)
    intros x. rewrite (held_insert _ _ _ _ _ Hp).
    specialize (Hlive x). rewrite (held_split _ _ _ _ Hp) in Hlive.
    specialize (Hothers x).
    by_cases p Hp Hstep Hcand Hpast;
      rewrite ?impl_at_with_live, ?impl_at_with_impl;
      cbn [live with_live with_impl candidate] in *;
      rewrite ?elem_of_union, ?elem_of_difference, ?elem_of_singleton;
      try (clear -Hlive; intuition congruence).
    + destruct Hmine as (Hc & _). rewrite Hnull in Hlive.
      split.
      * intros Hx. apply Hlive in Hx as [Hx|[(_ & Hx)|[Hx|Hx]]]; auto.
        -- exfalso. apply Hx. reflexivity.
        -- injection Hx as <-. auto.
      * intros [Hx|[(-> & _)|[Hx|Hx]]]; apply Hlive; auto. discriminate Hx.
    + destruct Hmine as (_ & _ & Hneq & _).
      pose proof (Hcnew _ _ _ Hp eq_refl) as Hnew.
      split.
      * intros (Hx & Hxc). apply Hlive in Hx as [Hx|[Hx|[Hx|Hx]]]; auto.
        congruence.
      * intros [Hx|[(Hx & Hpub)|[Hx|Hx]]].
        -- split; [apply Hlive; auto|]. intros ->. contradiction.
        -- split; [apply Hlive; auto|]. congruence.
        -- discriminate Hx.
        -- split; [apply Hlive; auto|]. intros ->. apply Hothers; auto.
  - (* li_cand_new *)
    intros t0 p0 c0 H0 Hc0.
    by_cases p Hp Hstep Hcand Hpast;
      use_lookup Hp H0; cbn in Hc0; try discriminate Hc0;
      try (injection Hc0 as <-);
      try (exact (Hcnew _ _ _ H0 Hc0)); try (exact (Hcnew _ _ _ Hp eq_refl)).
    intros Hin. assert (block rho ∈ live w) by (apply Hlive; left; exact Hin).
    contradiction.
  - (* li_impl_new *)
    by_cases p Hp Hstep Hcand Hpast;
      rewrite ?impl_at_with_live, ?impl_at_with_impl; try exact Hinew.
    intros _. exact (Hcnew _ _ _ Hp eq_refl).
  - (* li_returned *)
    intros t0 b v H0.
    apply (lookup_insert_cases _ _ _ _ _ _ Hp) in H0 as [[-> Heq]|[Hne H0]];
      by_cases p Hp Hstep Hcand Hpast;
      rewrite ?impl_at_with_live, ?impl_at_with_impl;
      try discriminate Heq; try assumption;
      try (exact (Hreturned _ _ _ H0)); tauto.
Qed.

(** The account holds along every execution. *)
Lemma exec_LiveInv (w0 : world) (c c' : config) (tr : list (nat * event)) :
  exec c tr c' ->
  forall (pre : list (nat * event)) (pcs : list pc),
    pool c = at_pc m <$> pcs ->
    Inv m pre (shared c) pcs -> LiveInv m w0 (shared c) pcs ->
    exists pcs',
      pool c' = at_pc m <$> pcs' /\ length pcs' = length pcs /\
      Inv m (pre ++ tr) (shared c') pcs' /\ LiveInv m w0 (shared c') pcs'.
Proof.
  induction 1 as [c|c c' c'' tr [t ev] Hexec IH Hstep]; intros pre pcs Hpool HI HL.
  - exists pcs. rewrite app_nil_r. auto.
  - destruct (IH pre pcs Hpool HI HL) as (pcs' & Hpool' & Hlen & HI' & HL').
    destruct (step_places m _ _ _ _ _ Hpool' Hstep)
      as (q & q' & rho & Hq & Halloc & Hpc & Hpool'').
    exists (<[t := q']> pcs'). split; [exact Hpool''|].
    split; [rewrite length_insert; exact Hlen|]. split.
    + rewrite app_assoc. eapply Inv_step; eauto.
    + eapply LiveInv_step; eauto.
Qed.

Lemma LiveInv_start (n : nat) (w : world) :
  impl_at w m = NULL -> LiveInv m w w (replicate n AtLoad).
Proof.
  intros Hnull. constructor.
  - intros x. split; [auto|]. intros [H|[(_ & H)|(t & p & H & Hc)]].
    + exact H.
    + contradiction.
    + apply lookup_replicate in H as [-> _]. discriminate Hc.
  - intros t p c H Hc. apply lookup_replicate in H as [-> _]. discriminate Hc.
  - intros H. contradiction.
  - intros t b v H. apply lookup_replicate in H as [H _]. discriminate H.
Qed.

(** No block is lost.  While the threads run, the blocks allocated beyond
    those of the start are the published handle and the candidates the
    threads hold; once every thread has returned, the one block allocated
    beyond those of the start is the published handle: every other candidate
    has been freed. *)
Theorem g_rec_mutex_get_impl_no_leak (n : nat) (w0 : world)
    (tr : list (nat * event)) (c : config) :
  impl_at w0 m = NULL ->
  exec (all_enter n m w0) tr c ->
  let h := impl_at (shared c) m in
  (forall x, x ∈ live (shared c) -> x ∉ live w0 ->
     (x = h /\ h <> NULL) \/
     exists t p q, pool c !! t = Some p /\ p = at_pc m q /\ candidate q = Some x) /\
  (forall x, x ∈ live w0 -> x ∈ live (shared c)) /\
  ((0 < n)%nat ->
   (forall t p, pool c !! t = Some p -> exists v, p = Ret v) ->
   h <> NULL /\ (h ∉ live w0) /\ live (shared c) = {[h]} ∪ live w0).
Proof.
  intros Hnull Hexec h.
  destruct (exec_LiveInv w0 _ _ _ Hexec [] (replicate n AtLoad))
    as (pcs & Hpool & Hlen & HI & [Hlive Hcnew Hinew Hreturned]).
  { unfold all_enter. cbn [pool]. rewrite fmap_replicate. reflexivity. }
  { apply Inv_start. exact Hnull. }
  { apply LiveInv_start. exact Hnull. }
  rewrite length_replicate in Hlen. fold h in Hlive, Hinew, Hreturned.
  split; [|split].
  - intros x Hx Hnew. apply Hlive in Hx as [Hx|[Hx|(t & q & Hq & Hc)]].
    + contradiction.
    + left. exact Hx.
    + right. exists t, (at_pc m q), q. split; [|auto].
      rewrite Hpool, list_lookup_fmap, Hq. reflexivity.
  - intros x Hx. apply Hlive. left. exact Hx.
  - intros Hn Hall.
    assert (Hplace : forall t q, pcs !! t = Some q -> exists b v, q = AtReturn b v).
    { intros t q Hq. destruct (Hall t (at_pc m q)) as [v Hv].
      - rewrite Hpool, list_lookup_fmap, Hq. reflexivity.
      - apply at_pc_Ret in Hv as [b ->]. eauto. }
    assert (Hh : h <> NULL).
    { destruct (lookup_lt_is_Some_2 pcs 0%nat) as [q Hq]; [lia|].
      destruct (Hplace _ _ Hq) as (b & v & ->). exact (Hreturned _ _ _ Hq). }
    split; [exact Hh|]. split; [exact (Hinew Hh)|].
    apply set_eq. intros x. rewrite Hlive, elem_of_union, elem_of_singleton.
    split.
    + intros [Hx|[(Hx & _)|(t & q & Hq & Hc)]]; [tauto|tauto|].
      destruct (Hplace _ _ Hq) as (b & v & ->). discriminate Hc.
    + intros [Hx|Hx]; [right; left; auto|left; exact Hx].
Qed.

(** A step of one place is a step of the threads. *)
Lemma place_step (w w' : world) (pcs : list pc) (t : nat) (q q' : pc)
    (rho : env) (ev : event) :
  pcs !! t = Some q ->
  (q = AtNew -> block rho <> NULL /\ block rho ∉ live w) ->
  pc_step m rho w q = Some (ev, q', w') ->
  step {| shared := w; pool := at_pc m <$> pcs |} (t, ev)
       {| shared := w'; pool := at_pc m <$> <[t := q']> pcs |}.
Proof.
  intros Hq Halloc Hpc. rewrite list_fmap_insert.
  pose proof (step_thread {| shared := w; pool := at_pc m <$> pcs |} t rho
                (at_pc m q) (at_pc m q') ev w') as Hs.
  cbn [shared pool] in Hs. apply Hs.
  - rewrite list_lookup_fmap, Hq. reflexivity.
  - intros Hall. apply Halloc. destruct q; cbn in Hall; try discriminate Hall.
    reflexivity.
  - rewrite thread_step_at_pc, Hpc. reflexivity.
Qed.

Lemma exec_app (c c' c'' : config) (tr tr' : list (nat * event)) :
  exec c tr c' -> exec c' tr' c'' -> exec c (tr ++ tr') c''.
Proof.
  intros H1 H2. induction H2 as [c'|c' d d' tr' l H2 IH Hs].
  - rewrite app_nil_r. exact H1.
  - rewrite app_assoc. eapply exec_more; [apply IH; exact H1|exact Hs].
Qed.

(** Every native call brings a thread nearer to its return. *)
Lemma pc_step_remaining (rho : env) (w w' : world) (q q' : pc) (ev : event) :
  pc_step m rho w q = Some (ev, q', w') -> (remaining q' < remaining q)%nat.
Proof.
  destruct q; cbn; intros H; try discriminate H;
    try (destruct (Z.eqb _ _)); injection H as _ <- _; cbn; lia.
Qed.

(** A thread can be run to its return while the others stand still. *)
Lemma thread_finishes (k : nat) :
  forall (w : world) (pcs : list pc) (t : nat) (q : pc),
    (remaining q <= k)%nat -> pcs !! t = Some q ->
    exists tr2 w2 b v,
      exec {| shared := w; pool := at_pc m <$> pcs |} tr2
           {| shared := w2; pool := at_pc m <$> <[t := AtReturn b v]> pcs |}.
Proof.
  induction k as [|k IH]; intros w pcs t q Hk Hq.
  - destruct q; cbn in Hk; try lia.
    exists [], w, first_use, impl. rewrite list_insert_id by exact Hq.
    apply exec_done.
  - destruct (pc_progress m w q) as [(b & v & ->)|(rho & ev & q' & w' & Hal & Hpc)].
    + exists [], w, b, v. rewrite list_insert_id by exact Hq. apply exec_done.
    + pose proof (pc_step_remaining _ _ _ _ _ _ Hpc) as Hless.
      destruct (IH w' (<[t := q']> pcs) t q') as (tr2 & w2 & b & v & Hex);
        [lia|eapply lookup_insert_same; exact Hq|].
      rewrite list_insert_insert_eq in Hex.
      exists ((t, ev) :: tr2), w2, b, v.
      eapply exec_first; [|exact Hex].
      apply (place_step w w' pcs t q q' rho ev Hq Hal Hpc).
Qed.

(** All threads can be run to their return, one after the other. *)
Lemma threads_finish (k : nat) :
  forall (w : world) (pcs : list pc),
    (k <= length pcs)%nat ->
    exists tr2 w2 pcs2,
      exec {| shared := w; pool := at_pc m <$> pcs |} tr2
           {| shared := w2; pool := at_pc m <$> pcs2 |} /\
      length pcs2 = length pcs /\
      forall t, (t < k)%nat -> exists b v, pcs2 !! t = Some (AtReturn b v).
Proof.
  induction k as [|k IH]; intros w pcs Hk.
  - exists [], w, pcs. split; [apply exec_done|]. split; [reflexivity|].
    intros t Ht. lia.
  - destruct (IH w pcs) as (tr2 & w2 & pcs2 & Hex & Hlen & Hret); [lia|].
    destruct (lookup_lt_is_Some_2 pcs2 k) as [q Hq]; [lia|].
    destruct (thread_finishes (remaining q) w2 pcs2 k q (le_n _) Hq)
      as (tr3 & w3 & b & v & Hex3).
    exists (tr2 ++ tr3), w3, (<[k := AtReturn b v]> pcs2).
    split; [eapply exec_app; eauto|].
    split; [rewrite length_insert; exact Hlen|].
    intros t Ht. destruct (decide (t = k)) as [->|Hne].
    + exists b, v. eapply lookup_insert_same; exact Hq.
    + rewrite lookup_insert_other by exact Hne. apply Hret. lia.
Qed.

(** A publication that won is a compare-and-exchange of the trace. *)
Lemma wins_in (tr : list (nat * event)) (t : nat) (a : ptr) :
  In (t, a) (wins tr) -> exists m' o, In (t, EvCas m' o a true) tr.
Proof.
  unfold wins. induction tr as [|[t' ev] tr IH]; cbn; [tauto|].
  unfold cas_won at 1. cbn [fst snd].
  destruct ev as [| | | | | | |m0 o0 c0 [|]| | | | |]; cbn;
    try (intros H; destruct (IH H) as (m' & o & ?); eauto; fail).
  intros [H|H].
  - injection H as -> ->. eauto.
  - destruct (IH H) as (m' & o & ?). eauto.
Qed.

(** Every step keeps the account of what was read. *)
Lemma ReadInv_step (tr : list (nat * event)) (w w' : world) (pcs : list pc)
    (t : nat) (p p' : pc) (rho : env) (ev : event) :
  Inv m tr w pcs -> ReadInv m tr w pcs ->
  pcs !! t = Some p ->
  pc_step m rho w p = Some (ev, p', w') ->
  ReadInv m (tr ++ [(t, ev)]) w' (<[t := p']> pcs).
Proof.
  intros HI [Hrload Hrtest Hrret] Hp Hstep. open_inv HI.
  assert (Hkeep : impl_at w m <> NULL -> impl_at w' m <> NULL).
  { intros Hpub. by_cases p Hp Hstep Hcand Hpast;
      rewrite ?impl_at_with_live, ?impl_at_with_impl; try assumption.
    contradiction. }
  constructor.
  - intros t0 H0. rewrite steps_by_snoc.
    apply (lookup_insert_cases _ _ _ _ _ _ Hp) in H0 as [[-> Heq]|[Hne H0]].
    + by_cases p Hp Hstep Hcand Hpast; discriminate Heq.
    + rewrite (proj2 (Nat.eqb_neq t t0)) by congruence.
      rewrite (Hrload _ H0). reflexivity.
  - intros t0 v H0. rewrite steps_by_snoc, in_snoc.
    apply (lookup_insert_cases _ _ _ _ _ _ Hp) in H0 as [[-> Heq]|[Hne H0]].
    + rewrite Nat.eqb_refl.
      by_cases p Hp Hstep Hcand Hpast; try discriminate Heq.
      injection Heq as <-. rewrite (Hrload _ Hp). auto.
    + rewrite (proj2 (Nat.eqb_neq t t0)) by congruence.
      destruct (Hrtest _ _ H0) as (-> & Hin). auto.
  - intros t0 b v H0. rewrite steps_by_snoc, in_snoc.
    apply (lookup_insert_cases _ _ _ _ _ _ Hp) in H0 as [[-> Heq]|[Hne H0]].
    + rewrite Nat.eqb_refl.
      pose proof (Hrtest t) as Htest.
      by_cases p Hp Hstep Hcand Hpast; try discriminate Heq;
        injection Heq as -> ->.
      * destruct (Htest _ Hp) as (-> & Hin). auto.
      * split; [assumption|]. split; [auto|]. discriminate.
    + rewrite (proj2 (Nat.eqb_neq t t0)) by congruence.
      destruct (Hrret _ _ _ H0) as (Hpub & Hin & Htwo).
      split; [exact (Hkeep Hpub)|]. split; [auto|].
      intros Hb. rewrite (Htwo Hb). reflexivity.
Qed.

Lemma ReadInv_start (n : nat) (w : world) : ReadInv m [] w (replicate n AtLoad).
Proof.
  constructor.
  - reflexivity.
  - intros t v H. apply lookup_replicate in H as [H _]. discriminate H.
  - intros t b v H. apply lookup_replicate in H as [H _]. discriminate H.
Qed.

(** The account holds along every execution. *)
Lemma exec_ReadInv (c c' : config) (tr : list (nat * event)) :
  exec c tr c' ->
  forall (pre : list (nat * event)) (pcs : list pc),
    pool c = at_pc m <$> pcs ->
    Inv m pre (shared c) pcs -> ReadInv m pre (shared c) pcs ->
    exists pcs',
      pool c' = at_pc m <$> pcs' /\ length pcs' = length pcs /\
      Inv m (pre ++ tr) (shared c') pcs' /\ ReadInv m (pre ++ tr) (shared c') pcs'.
Proof.
  induction 1 as [c|c c' c'' tr [t ev] Hexec IH Hstep]; intros pre pcs Hpool HI HR.
  - exists pcs. rewrite app_nil_r. auto.
  - destruct (IH pre pcs Hpool HI HR) as (pcs' & Hpool' & Hlen & HI' & HR').
    destruct (step_places m _ _ _ _ _ Hpool' Hstep)
      as (q & q' & rho & Hq & Halloc & Hpc & Hpool'').
    exists (<[t := q']> pcs'). split; [exact Hpool''|].
    split; [rewrite length_insert; exact Hlen|]. rewrite app_assoc. split.
    + eapply Inv_step; eauto.
    + eapply ReadInv_step; eauto.
Qed.

(** [n] threads enter [g_rec_mutex_get_impl] on a mutex whose [impl] is
    NULL, and their native calls interleave in any order.  Then: every
    compare-and-exchange is against NULL, with a candidate its thread got from
    [g_slice_new], and no thread makes more than one; at most one of them
    succeeds, and exactly one as soon as any was made, after which the field
    holds that candidate for good; a thread whose exchange failed holds a
    candidate that is not the published one, that no read of the field ever
    returned, and it has freed it by the time it returns; the published block
    is never freed; every thread that went through the allocation, and every
    thread that enters once the handle is published, returns the published
    handle, which is not NULL; no thread is ever stuck: it returns within
    eleven native calls.  Whenever a thread has returned, the handle is
    published and what the thread returns is a value it read from the field:
    the handle, or else NULL, and then the thread made the two reads and
    nothing else.  Once all have returned, one publication has won, by a
    thread that built the handle itself and returned it.  And from wherever
    the threads are they can all be run to their return. *)
Theorem g_rec_mutex_get_impl_publishes_once (n : nat) (w0 : world)
    (tr : list (nat * event)) (c : config) :
  impl_at w0 m = NULL ->
  exec (all_enter n m w0) tr c ->
  let h := impl_at (shared c) m in
  (forall t m' o a ok,
     In (t, EvCas m' o a ok) tr ->
     m' = m /\ o = NULL /\ a <> NULL /\ In (t, EvSliceNew a) tr) /\
  (forall t, (t < n)%nat -> (cas_count t tr <= 1)%nat) /\
  ((h = NULL /\ wins tr = [] /\
    forall t m' o a ok, ~ In (t, EvCas m' o a ok) tr) \/
   (h <> NULL /\ h ∈ live (shared c) /\ exists t0, wins tr = [(t0, h)])) /\
  (forall t a,
     In (t, EvCas m NULL a false) tr ->
     a <> h /\
     (forall t' m' v, In (t', EvLoad m' v) tr -> v <> a) /\
     (forall v, pool c !! t = Some (Ret v) -> In (t, EvSliceFree a) tr)) /\
  (forall t a, In (t, EvSliceFree a) tr -> a <> h) /\
  (forall t v,
     pool c !! t = Some (Ret v) -> cas_count t tr = 1%nat ->
     v = h /\ v <> NULL) /\
  (h <> NULL ->
   forall t tr2 c2,
     steps_by t tr = 0%nat -> exec c tr2 c2 ->
     impl_at (shared c2) m = h /\
     forall v, pool c2 !! t = Some (Ret v) -> v = h) /\
  (forall t p,
     pool c !! t = Some p ->
     (steps_by t tr <= 11)%nat /\
     ((exists v, p = Ret v) \/
      exists rho ev p' w',
        allocator_ok rho (shared c) p /\
        thread_step rho t (shared c) p = Some (ev, p', w'))) /\
  (forall t v,
     pool c !! t = Some (Ret v) ->
     h <> NULL /\ In (t, EvLoad m v) tr /\
     (v = h \/ (v = NULL /\ cas_count t tr = 0%nat /\ steps_by t tr = 2%nat))) /\
  ((0 < n)%nat ->
   (forall t p, pool c !! t = Some p -> exists v, p = Ret v) ->
   exists t0,
     (t0 < n)%nat /\ wins tr = [(t0, h)] /\ h <> NULL /\
     In (t0, EvSliceNew h) tr /\ pool c !! t0 = Some (Ret h)) /\
  (exists tr2 c2,
     exec c tr2 c2 /\
     forall t p, pool c2 !! t = Some p -> exists v, p = Ret v).
Proof.
  intros Hnull Hexec h.
  destruct (exec_ReadInv _ _ _ Hexec [] (replicate n AtLoad))
    as (pcs & Hpool & Hlen & HI & [Hrload Hrtest Hrret]).
  { unfold all_enter. cbn [pool]. rewrite fmap_replicate. reflexivity. }
  { apply Inv_start. exact Hnull. }
  { apply ReadInv_start. }
  cbn [app] in HI, Hrload, Hrtest, Hrret. rewrite length_replicate in Hlen.
  fold h in Hrret.
  pose proof HI as HI0. open_inv HI. fold h in Himpl, Hcand, Hpast, Hret, Hcas, Hloads, Hfrees, Hwins.
  assert (Hplace : forall t p, pool c !! t = Some p ->
            exists q, pcs !! t = Some q /\ p = at_pc m q).
  { intros t p Hp. rewrite Hpool, list_lookup_fmap in Hp.
    destruct (pcs !! t) as [q|]; [|discriminate Hp].
    injection Hp as <-. eauto. }
  split; [|split; [|split; [|split; [|split; [|split; [|split; [|split;
    [|split; [|split]]]]]]]]].
  - intros t m' o a ok Hin.
    destruct (Hcas _ _ _ _ _ Hin) as (? & ? & ? & ? & _). auto.
  - intros t Ht.
    destruct (lookup_lt_is_Some_2 pcs t) as [q Hq]; [lia|].
    rewrite (Hcount _ _ Hq). destruct (past_cas q); lia.
  - destruct Hwins as [(Hz & Hw)|(Hpub & Hw)]; [left|right].
    + split; [exact Hz|]. split; [exact Hw|].
      intros t m' o a ok Hin.
      destruct (Hcas _ _ _ _ _ Hin) as (_ & _ & _ & _ & (q & Hq & Hqp) & _).
      exact (Hpast _ _ Hq Hqp Hz).
    + split; [exact Hpub|]. split; [|exact Hw].
      destruct Himpl; [contradiction|assumption].
  - intros t a Hin.
    destruct (Hcas _ _ _ _ _ Hin) as (_ & _ & Ha & _ & _ & Hlost).
    destruct (Hlost eq_refl) as (Hneq & Hfree).
    split; [exact Hneq|]. split.
    + intros t' m' v Hld. destruct (Hloads _ _ _ Hld) as (_ & [->| ->]); congruence.
    + intros v Hp. destruct Hfree as [(q & Hq & Hf)|Hfree]; [|exact Hfree].
      destruct (Hplace _ _ Hp) as (q' & Hq' & Heq).
      symmetry in Heq. apply at_pc_Ret in Heq as [b ->].
      assert (q = AtReturn b v) by congruence. subst q. discriminate Hf.
  - intros t a Hin. exact (proj1 (Hfrees _ _ Hin)).
  - intros t v Hp Hone.
    destruct (Hplace _ _ Hp) as (q & Hq & Heq).
    symmetry in Heq. apply at_pc_Ret in Heq as [b ->].
    pose proof (Hcount _ _ Hq) as Hc. rewrite Hone in Hc.
    destruct b; cbn in Hc; [|discriminate Hc].
    pose proof (Hret _ _ Hq) as ->. split; [reflexivity|].
    exact (Hpast _ _ Hq eq_refl).
  - intros Hpub t tr2 c2 Hzero Hexec2.
    destruct (Nat.lt_ge_cases t (length pcs)) as [Hlt|Hge].
    + destruct (lookup_lt_is_Some_2 pcs t Hlt) as [q Hq].
      pose proof (Hfresh _ _ Hq Hzero) as ->.
      destruct (exec_settled m _ _ _ Hexec2 pcs t AtLoad h Hpool eq_refl Hpub Hq I)
        as (pcs2 & q2 & Hpool2 & Hh2 & Hq2 & Hset2).
      split; [exact Hh2|]. intros v Hp.
      rewrite Hpool2, list_lookup_fmap, Hq2 in Hp. injection Hp as Hp.
      apply at_pc_Ret in Hp as [b ->]. exact Hset2.
    + destruct (exec_Inv m _ _ _ Hexec2 tr pcs Hpool HI0) as (pcs2 & Hpool2 & Hlen2 & HI2).
      split.
      * destruct (inv_wins _ _ _ _ HI2) as [(Hz & Hw)|(_ & t0 & Hw)].
        -- exfalso. destruct Hwins as [(Hz0 & _)|(_ & t0 & Hw0)]; [contradiction|].
           unfold wins in Hw. rewrite omap_app in Hw. fold (wins tr) in Hw.
           rewrite Hw0 in Hw. discriminate Hw.
        -- destruct Hwins as [(Hz0 & _)|(_ & t1 & Hw1)]; [contradiction|].
           unfold wins in Hw. rewrite omap_app in Hw. fold (wins tr) in Hw.
           rewrite Hw1 in Hw. injection Hw as _ Hw _. symmetry. exact Hw.
      * intros v Hp. rewrite Hpool2, list_lookup_fmap in Hp.
        rewrite (lookup_ge_None_2 pcs2 t) in Hp by lia. discriminate Hp.
  - intros t p Hp. destruct (Hplace _ _ Hp) as (q & Hq & ->).
    split; [pose proof (Hbudget _ _ Hq); lia|].
    destruct (pc_progress m (shared c) q) as [(b & v & ->)|(rho & ev & q' & w' & Hal & Hpc)].
    + left. eauto.
    + right. exists rho, ev, (at_pc m q'), w'. split.
      * intros Hall. apply Hal. destruct q; cbn in Hall; try discriminate Hall.
        reflexivity.
      * rewrite thread_step_at_pc, Hpc. reflexivity.
  - intros t v Hp.
    destruct (Hplace _ _ Hp) as (q & Hq & Heq).
    symmetry in Heq. apply at_pc_Ret in Heq as [b ->].
    destruct (Hrret _ _ _ Hq) as (Hpub & Hread & Htwo).
    split; [exact Hpub|]. split; [exact Hread|].
    destruct (Hloads _ _ _ Hread) as (_ & [Hv|Hv]); [|left; exact Hv].
    destruct b.
    + left. exact (Hret _ _ Hq).
    + right. split; [exact Hv|]. split; [|exact (Htwo eq_refl)].
      rewrite (Hcount _ _ Hq). reflexivity.
  - intros Hn Hall.
    assert (Hreturned : forall t q, pcs !! t = Some q -> exists b v, q = AtReturn b v).
    { intros t q Hq. destruct (Hall t (at_pc m q)) as [v Hv].
      - rewrite Hpool, list_lookup_fmap, Hq. reflexivity.
      - apply at_pc_Ret in Hv as [b ->]. eauto. }
    assert (Hh : h <> NULL).
    { destruct (lookup_lt_is_Some_2 pcs 0%nat) as [q Hq]; [lia|].
      destruct (Hreturned _ _ Hq) as (b & v & ->).
      exact (proj1 (Hrret _ _ _ Hq)). }
    destruct Hwins as [(Hz & _)|(_ & t0 & Hw)]; [contradiction|].
    destruct (wins_in tr t0 h) as (m' & o & Hin); [rewrite Hw; left; reflexivity|].
    destruct (Hcas _ _ _ _ _ Hin) as (_ & _ & _ & Hnew & (q & Hq & Hqp) & _).
    exists t0. split; [rewrite <- Hlen; eapply lookup_lt_Some; exact Hq|].
    split; [exact Hw|]. split; [exact Hh|]. split; [exact Hnew|].
    destruct (Hreturned _ _ Hq) as (b & v & ->).
    destruct b; [|discriminate Hqp].
    rewrite Hpool, list_lookup_fmap, Hq. cbn. rewrite (Hret _ _ Hq). reflexivity.
  - assert (Hc : c = {| shared := shared c; pool := at_pc m <$> pcs |}).
    { destruct c as [w pl]. cbn in Hpool. rewrite Hpool. reflexivity. }
    destruct (threads_finish (length pcs) (shared c) pcs (le_n _))
      as (tr2 & w2 & pcs2 & Hex & Hlen2 & Hdone).
    rewrite <- Hc in Hex.
    exists tr2, {| shared := w2; pool := at_pc m <$> pcs2 |}.
    split; [exact Hex|]. intros t p Hp. cbn in Hp.
    rewrite list_lookup_fmap in Hp.
    destruct (pcs2 !! t) as [q|] eqn:Hq; [|discriminate Hp].
    injection Hp as <-.
    destruct (Hdone t) as (b & v & Hq').
    { rewrite <- Hlen2. eapply lookup_lt_Some; exact Hq. }
    assert (q = AtReturn b v) by congruence. subst q. exists v. reflexivity.
Qed.

End RaceMore.

(** ** The further theorems at concrete inputs *)

Lemma block_all_succeed : block all_succeed <> NULL.
Proof. discriminate. Qed.

Lemma g_rec_mutex_get_impl_alone_witness :
  block all_succeed <> NULL /\
  out (run all_succeed 0%nat (g_rec_mutex_get_impl 700) world0) = Returned 4096.
Proof.
  split; [exact block_all_succeed|].
  exact (proj1 (proj1 (proj2 (g_rec_mutex_get_impl_alone all_succeed 0%nat
                                world0 700 block_all_succeed)) eq_refl)).
Defined.

Lemma g_rec_mutex_init_then_clear_witness :
  (block all_succeed ∉ live world0) /\
  live (final (run all_succeed 1%nat (g_rec_mutex_clear 700)
                 (final (run all_succeed 0%nat (g_rec_mutex_init 700) world0))))
  = live world0.
Proof.
  assert (H : block all_succeed ∉ live world0) by apply not_elem_of_empty.
  split; [exact H|].
  exact (proj2 (proj2 (proj2 (proj2 (proj2
           (g_rec_mutex_init_then_clear all_succeed 0%nat world0 700
              all_succeed 1%nat block_all_succeed H)))))).
Defined.

Lemma world_allocated_impl : impl_at world_allocated 700 <> NULL.
Proof. intros H. vm_compute in H. discriminate H. Qed.

Lemma g_rec_mutex_clear_keeps_field_witness :
  impl_at world_allocated 700 <> NULL /\
  impl_at (final (run all_succeed 0%nat (g_rec_mutex_clear 700) world_allocated)) 700
  = impl_at world_allocated 700.
Proof.
  split; [exact world_allocated_impl|].
  exact (proj1 (g_rec_mutex_clear_keeps_field all_succeed 0%nat world_allocated
                  700 all_succeed all_succeed 1%nat 2%nat world_allocated_impl)).
Defined.



Lemma trylock_failure_policies_differ_witness :
  out (run (all_report EINVAL) 0%nat (g_mutex_trylock linux 500) world0) = Aborted /\
  out (run (all_report EINVAL) 0%nat (g_rw_lock_writer_trylock 600) world0)
  = Returned false.
Proof.
  destruct (trylock_failure_policies_differ linux (all_report EINVAL) 0%nat world0
              500 600 EINVAL ltac:(discriminate) ltac:(discriminate)
              eq_refl eq_refl eq_refl) as (H1 & H2 & _).
  split; [exact H1|exact H2].
Defined.

Lemma g_cond_timedwait_deadline_witness :
  deadline_of (trace (run all_succeed 0%nat
                        (g_cond_timedwait linux 300 500 1500000) world0))
  = Some (1, 500000000).
Proof.
  exact (proj1 (g_cond_timedwait_deadline linux all_succeed 0%nat world0 300 500
                  1500000 linux_ok ltac:(discriminate) eq_refl)).
Defined.

Lemma g_cond_timedwait_negative_deadline_witness :
  exists sec nsec,
    deadline_of (trace (run all_succeed 0%nat
                          (g_cond_timedwait linux 300 500 (-1500000)) world0))
    = Some (sec, nsec) /\
    - NSEC_PER_SEC < nsec < 0 /\ sec <= 0 /\
    timespec_ns sec nsec = -1500000 * 1000.
Proof.
  apply (g_cond_timedwait_negative_deadline linux all_succeed 0%nat world0 300 500
           (-1500000) linux_ok eq_refl).
  - discriminate.
  - discriminate.
Defined.

Lemma g_cond_timed_wait_as_timedwait_witness :
  run all_succeed 0%nat
    (g_cond_timed_wait linux 300 500 (Some {| tv_sec := 5; tv_usec := 250 |})) world0
  = run all_succeed 0%nat (g_cond_timedwait linux 300 500 5000250) world0.
Proof.
  apply (g_cond_timed_wait_as_timedwait linux all_succeed 0%nat world0 300 500
           {| tv_sec := 5; tv_usec := 250 |} linux_ok).
  - cbn. lia.
  - cbn. unfold USEC_PER_SEC. lia.
  - discriminate.
Defined.

Lemma g_cond_timed_wait_not_normalised_witness :
  exists nsec,
    deadline_of (trace (run all_succeed 0%nat
                          (g_cond_timed_wait linux 300 500
                             (Some {| tv_sec := 5; tv_usec := 1500000 |})) world0))
    = Some (5, nsec) /\
    nsec = 1500000 * 1000 /\
    (nsec < NSEC_PER_SEC <-> 1500000 < USEC_PER_SEC).
Proof.
  apply (g_cond_timed_wait_not_normalised linux all_succeed 0%nat world0 300 500
           {| tv_sec := 5; tv_usec := 1500000 |} linux_ok).
  cbn. lia.
Defined.

Lemma g_system_thread_create_returns_iff_witness :
  final (run (failing "pthread_create" 11) 0%nat
           (g_system_thread_create linux 7 0 0 true 900) world0) = world0.
Proof.
  exact (proj2 (proj2 (proj2 (g_system_thread_create_returns_iff linux 0%nat world0
                                7 0 0 true 900 (failing "pthread_create" 11)
                                linux_ok ltac:(discriminate))))).
Defined.

Lemma g_system_thread_create_ignores_setstacksize_status_witness :
  out (run all_succeed 0%nat
         (g_system_thread_create linux 7 0 4096 true 900) world0)
  = out (run (failing "pthread_attr_setstacksize" EINVAL) 0%nat
           (g_system_thread_create linux 7 0 4096 true 900) world0).
Proof.
  refine (proj1 (g_system_thread_create_ignores_setstacksize_status linux 0%nat
                   world0 7 0 4096 true 900 all_succeed
                   (failing "pthread_attr_setstacksize" EINVAL) _ eq_refl)).
  intros c Hc. destruct c; try reflexivity. discriminate Hc.
Defined.

Lemma g_private_init_failure_aliases_witness :
  final (run (all_report ENOMEM) 0%nat
           (g_private_init {| single_value := 77; ready := false; key := 3 |} 0)
           world0) = world0.
Proof.
  exact (proj1 (proj2 (g_private_init_failure_aliases linux
                         {| single_value := 77; ready := false; key := 3 |}
                         {| single_value := 0; ready := true; key := 3 |}
                         0 (all_report ENOMEM) all_succeed all_succeed
                         0%nat 1%nat world0 5 ltac:(discriminate)))).
Defined.

Lemma g_rec_mutex_get_impl_can_return_null_witness :
  exists tr c,
    exec (all_enter 2 700 world0) tr c /\
    impl_at (shared c) 700 = 4096 /\
    pool c !! 1%nat = Some (Ret 4096) /\
    pool c !! 0%nat = Some (Ret NULL).
Proof.
  apply (g_rec_mutex_get_impl_can_return_null 700 world0 4096 eq_refl).
  - discriminate.
  - apply not_elem_of_empty.
Defined.

Lemma g_rec_mutex_get_impl_frees_own_block_witness :
  exists tr c c',
    exec (all_enter 2 700 world0) tr c /\
    step c (1%nat, EvSliceFree 8192) c' /\
    8192 ∈ live (shared c).
Proof.
  destruct (run_schedule until_loser_frees (all_enter 2 700 world0))
    as [[tr c]|] eqn:H; [|vm_compute in H; discriminate H].
  pose proof (run_schedule_exec _ _ _ _ H) as Hexec.
  destruct (sched_step c 1%nat (handing_out 8192)) as [[ev c']|] eqn:Hs;
    [|vm_compute in H; injection H as <- <-; vm_compute in Hs; discriminate Hs].
  assert (Hev : ev = EvSliceFree 8192).
  { vm_compute in H. injection H as <- <-. vm_compute in Hs.
    injection Hs as <- _. reflexivity. }
  subst ev. apply sched_step_step in Hs.
  exists tr, c, c'. split; [exact Hexec|]. split; [exact Hs|].
  exact (proj1 (g_rec_mutex_get_impl_frees_own_block 700 2 world0 tr c c' 1%nat
                  8192 eq_refl Hexec Hs)).
Defined.

Lemma g_rec_mutex_get_impl_no_leak_witness :
  exists tr c,
    exec (all_enter 2 700 world0) tr c /\
    forall x, x ∈ live world0 -> x ∈ live (shared c).
Proof.
  destruct (run_schedule both_allocate (all_enter 2 700 world0))
    as [[tr c]|] eqn:H; [|vm_compute in H; discriminate H].
  pose proof (run_schedule_exec _ _ _ _ H) as Hexec.
  exists tr, c. split; [exact Hexec|].
  exact (proj1 (proj2 (g_rec_mutex_get_impl_no_leak 700 2 world0 tr c eq_refl
                         Hexec))).
Defined.

Lemma g_rec_mutex_get_impl_publishes_once_witness :
  impl_at world0 700 = NULL /\
  exists tr c,
    exec (all_enter 2 700 world0) tr c /\
    exists t0,
      (t0 < 2)%nat /\ wins tr = [(t0, impl_at (shared c) 700)] /\
      impl_at (shared c) 700 <> NULL /\
      In (t0, EvSliceNew (impl_at (shared c) 700)) tr /\
      pool c !! t0 = Some (Ret (impl_at (shared c) 700)).
Proof.
  split; [reflexivity|].
  destruct (run_schedule both_allocate (all_enter 2 700 world0))
    as [[tr c]|] eqn:H; [|vm_compute in H; discriminate H].
  pose proof (run_schedule_exec _ _ _ _ H) as Hexec.
  exists tr, c. split; [exact Hexec|].
  destruct (g_rec_mutex_get_impl_publishes_once 700 2 world0 tr c eq_refl Hexec)
    as (_ & _ & _ & _ & _ & _ & _ & _ & _ & Hall & _).
  apply Hall; [lia|].
  clear Hall Hexec. vm_compute in H. injection H as <- <-.
  intros t p Hp. destruct t as [|[|t]]; cbn in Hp; try discriminate Hp;
    injection Hp as <-; eauto.
Defined.
